(** * A two-tier sealed-bid auction on a parent/child blockchain

    Shallow embedding of [src/propose_auction.py] (the committed and
    encrypted protocol) and [src/ordinal_auction.py] (the plaintext
    baseline), followed by the properties established about them.

    Python integers are unbounded, so they are modelled by [Z].  Python
    objects that are shared and mutated ([User]) live in an explicit store
    and are referred to by location.  Exceptions are values of [exn]; a
    method that can raise returns a [result] next to the object state it
    leaves behind. *)

From Stdlib Require Import ZArith Zcong Zpow_facts Lia.
From Stdlib Require Import Zmod.ZmodInv.
From Stdlib Require Import Sorting.Sorted.
From stdpp Require Import base option list strings pretty.

Local Open Scope Z_scope.

(** ** Python primitives *)

Module Py.

  (** The exceptions the two source files can raise.  Every [ValueError] of
      the source is told apart by its message. *)
Inductive exn : Type :=
    | BidOutOfRange (bid max_safe_bid : Z)
        (* ValueError("Bid value {bid} exceeds safe range {max_safe_bid}") *)
    | CommitmentNotCreated
        (* ValueError("Commitment not created yet") *)
    | MissingInputs
        (* ValueError("Final winners or random values not set") *)
    | PowZeroModulus
        (* ValueError: pow() 3rd argument cannot be 0 *)
    | PowNotInvertible
        (* ValueError: base is not invertible for the given modulus *)
    | IndexError
        (* list index out of range *)
    | ZeroDivisionError
        (* integer modulo by zero *)
    | TypeError
        (* arithmetic on None *)
    | NotAnInteger.
        (* pow(int, negative int) is a float: outside the integer model *)

Inductive result (A : Type) : Type :=
    | Return (a : A)
    | Raise (e : exn).
Arguments Return {A} a.
Arguments Raise {A} e.

#[global] Instance result_ret : MRet result := @Return.
#[global] Instance result_bind : MBind result := fun A B f m =>
    match m with
    | Return a => f a
    | Raise e => Raise e
    end.

  (** [pow(b, e, m)]: modular exponentiation by repeated squaring.  The
      result carries the sign of [m], as [Z.modulo] does.  A negative
      exponent asks for the modular inverse of the base. *)
Definition pow3 (b e m : Z) : result Z :=
    if m =? 0 then Raise PowZeroModulus
    else if 0 <=? e then Return (Zpow_mod b e m)
    else if Z.gcd b m =? 1 then Return (Zpow_mod (Z.invmod b m) (- e) m)
    else Raise PowNotInvertible.

  (** [pow(b, e)] on integers. *)
Definition pow2 (b e : Z) : result Z :=
    if e <? 0 then Raise NotAnInteger else Return (b ^ e).

  (** [a % m] *)
Definition mod_ (a m : Z) : result Z :=
    if m =? 0 then Raise ZeroDivisionError else Return (a mod m).

  (** [l[i]] for a non-negative index. *)
Definition index {A} (l : list A) (i : nat) : result A :=
    match l !! i with
    | Some x => Return x
    | None => Raise IndexError
    end.

  (** [l[:M]]: the first [M] items, or all but the last [-M] when [M] is
      negative. *)
Definition slice_to {A} (M : Z) (l : list A) : list A :=
    if M <? 0 then take (Z.to_nat (Z.of_nat (length l) + M)) l
    else take (Z.to_nat M) l.

  (** [sorted(l, key=key, reverse=True)]: the stable descending sort.  An
      item is placed in front of the first item whose key is not larger, so
      among equal keys the earlier item of [l] stays first. *)
Fixpoint insert_desc {A} (key : A -> Z) (x : A) (l : list A) : list A :=
    match l with
    | [] => [x]
    | y :: l' =>
        if key y <=? key x then x :: y :: l' else y :: insert_desc key x l'
    end.

Definition sorted_desc {A} (key : A -> Z) (l : list A) : list A :=
    foldr (insert_desc key) [] l.

End Py.
Import Py.

(** A primality test by trial division, used to check concrete key
    material: [no_divisor fuel n p] holds when none of the [fuel] numbers
    from [n] on divides [p]. *)
Fixpoint no_divisor (fuel : nat) (n p : Z) : bool :=
  match fuel with
  | O => true
  | S fuel' => negb (p mod n =? 0) && no_divisor fuel' (n + 1) p
  end.

Definition prime_b (p : Z) : bool :=
  (1 <? p) && no_divisor (Z.to_nat (p - 2)) 2 p.

(** ** The committed and encrypted protocol, [propose_auction.py] *)

Module ProposeAuction.

Definition key : Type := (Z * Z)%type.

  (** *** Key generation *)

Section KeyGeneration.

    (** [randprime i a b] is what the [i]-th call of sympy's
        [randprime(a, b)] returns: a prime of the interval [a, b) when there
        is one.  The library and its random source are not part of the
        repository. *)
Variable randprime : nat -> Z -> Z -> Z.

    (** [while q == p: q = randprime(lower, upper)].  [fuel] bounds the
        number of times the loop condition is evaluated; [i] counts the
        calls of [randprime] made so far. *)
Fixpoint while_q_eq_p (fuel : nat) (lower upper : Z) (i : nat) (p q : Z)
      : option (Z * nat) :=
      match fuel with
      | O => None
      | S fuel' =>
          if q =? p
          then while_q_eq_p fuel' lower upper (S i) p (randprime i lower upper)
          else Some (q, i)
      end.

    (** [while phi % e == 0: e = randprime(3, 1000)] *)
Fixpoint while_phi_mod_e (fuel : nat) (i : nat) (phi e : Z)
      : option (result Z) :=
      match fuel with
      | O => None
      | S fuel' =>
          match mod_ phi e with
          | Raise x => Some (Raise x)
          | Return r =>
              if r =? 0
              then while_phi_mod_e fuel' (S i) phi (randprime i 3 1000)
              else Some (Return e)
          end
      end.

    (** [generate_keys(bit_length)].  [None] means that the loops are still
        running when the fuel is spent. *)
Definition generate_keys (fuel : nat) (bit_length : Z)
      : option (result (key * key)) :=
      let lower := 2 ^ (bit_length / 2 - 1) in
      let upper := 2 ^ (bit_length / 2) - 1 in
      let p := randprime 0%nat lower upper in
      match while_q_eq_p fuel lower upper 1 p p with
      | None => None
      | Some (q, i) =>
          let n := p * q in
          let phi := (p - 1) * (q - 1) in
          match while_phi_mod_e fuel i phi 65537 with
          | None => None
          | Some (Raise x) => Some (Raise x)
          | Some (Return e) =>
              Some (d ← pow3 e (-1) phi; Return ((e, n), (d, n)))
          end
      end.

End KeyGeneration.

  (** *** Encryption, decryption, generator *)

Definition encrypt (m : Z) (pubkey : key) : result Z :=
    let '(e, n) := pubkey in pow3 m e n.

Definition decrypt (c : Z) (privkey : key) : result Z :=
    let '(d, n) := privkey in pow3 c d n.

Definition vc_keygen (k q : Z) : Z := 2.

  (** The modulus [create_commitment] uses when none is given. *)
Definition default_modulus : Z := 2 ^ 31 - 1.

  (** *** User *)

Record User : Type := mkUser {
    user_id : string;
    bid_value : Z;
    commitment : option Z;
    encrypted_commitment : option Z
  }.

Definition User_init (user_id : string) (bid_value : Z) : User :=
    mkUser user_id bid_value None None.

Definition set_commitment (c : Z) (self : User) : User :=
    mkUser (user_id self) (bid_value self) (Some c) (encrypted_commitment self).

Definition set_encrypted_commitment (c : Z) (self : User) : User :=
    mkUser (user_id self) (bid_value self) (commitment self) (Some c).

Definition max_safe_bid : Z := 1000.

Definition create_commitment (g : Z) (modulus : option Z) (self : User)
    : result Z * User :=
    let modulus := default default_modulus modulus in
    if max_safe_bid <? bid_value self
    then (Raise (BidOutOfRange (bid_value self) max_safe_bid), self)
    else match pow3 g (bid_value self) modulus with
         | Return c => (Return c, set_commitment c self)
         | Raise x => (Raise x, self)
         end.

Definition encrypt_commitment (pubkey : key) (self : User)
    : result Z * User :=
    match commitment self with
    | None => (Raise CommitmentNotCreated, self)
    | Some c =>
        match encrypt c pubkey with
        | Return x => (Return x, set_encrypted_commitment x self)
        | Raise x => (Raise x, self)
        end
    end.

  (** Users are shared objects: the driver, the roster of a verifier and
      the winner lists all point to the same [User].  The store maps a
      location (an index) to the current state of the object. *)
Abbreviation loc := nat.
Abbreviation store := (list User).

  (** *** CBCVerifier *)

Record CBCVerifier : Type := mkCBC {
    cbc_id : string;
    cbc_pubkey : key;
    cbc_privkey : key;
    users : list loc;
    decrypted_commitments : list (loc * Z);
    top_M_winners : list (loc * Z)
  }.

  (** [CBCVerifier(cbc_id)], given the key pair [generate_keys()] returned. *)
Definition CBCVerifier_init (cbc_id : string) (keys : key * key)
    : CBCVerifier :=
    mkCBC cbc_id (fst keys) (snd keys) [] [] [].

Definition set_users (us : list loc) (self : CBCVerifier) : CBCVerifier :=
    mkCBC (cbc_id self) (cbc_pubkey self) (cbc_privkey self) us
          (decrypted_commitments self) (top_M_winners self).

Definition set_decrypted_commitments (dc : list (loc * Z))
    (self : CBCVerifier) : CBCVerifier :=
    mkCBC (cbc_id self) (cbc_pubkey self) (cbc_privkey self) (users self)
          dc (top_M_winners self).

Definition set_top_M_winners (ws : list (loc * Z)) (self : CBCVerifier)
    : CBCVerifier :=
    mkCBC (cbc_id self) (cbc_pubkey self) (cbc_privkey self) (users self)
          (decrypted_commitments self) ws.

Definition register_user (user : loc) (self : CBCVerifier) : CBCVerifier :=
    set_users (users self ++ [user]) self.

  (** The body of the [for user in self.users] loop of
      [decrypt_commitments].  A location outside the store is passed over
      like a user without ciphertext; rosters only hold allocated users, so
      it does not arise. *)
Fixpoint decrypt_commitments_loop (h : store) (us : list loc)
    (self : CBCVerifier) : result unit * CBCVerifier :=
    match us with
    | [] => (Return tt, self)
    | user :: us' =>
        match h !! user ≫= encrypted_commitment with
        | None => decrypt_commitments_loop h us' self
        | Some c =>
            match decrypt c (cbc_privkey self) with
            | Raise x => (Raise x, self)
            | Return decrypted =>
                decrypt_commitments_loop h us'
                  (set_decrypted_commitments
                     (decrypted_commitments self ++ [(user, decrypted)]) self)
            end
        end
    end.

Definition decrypt_commitments (h : store) (self : CBCVerifier)
    : result (list (loc * Z)) * CBCVerifier :=
    let self0 := set_decrypted_commitments [] self in
    match decrypt_commitments_loop h (users self0) self0 with
    | (Return _, self') => (Return (decrypted_commitments self'), self')
    | (Raise x, self') => (Raise x, self')
    end.

Definition select_top_M (M : Z) (self : CBCVerifier)
    : list (loc * Z) * CBCVerifier :=
    let sorted_commitments := sorted_desc snd (decrypted_commitments self) in
    let self' := set_top_M_winners (slice_to M sorted_commitments) self in
    (top_M_winners self', self').

Fixpoint encrypt_winners_loop (pbc_pubkey : key) (ws : list (loc * Z))
    (encrypted_winners : list (loc * Z)) : result (list (loc * Z)) :=
    match ws with
    | [] => Return encrypted_winners
    | (user, c) :: ws' =>
        match encrypt c pbc_pubkey with
        | Raise x => Raise x
        | Return encrypted =>
            encrypt_winners_loop pbc_pubkey ws'
              (encrypted_winners ++ [(user, encrypted)])
        end
    end.

Definition encrypt_winners_for_pbc (pbc_pubkey : key) (self : CBCVerifier)
    : result (list (loc * Z)) * CBCVerifier :=
    (encrypt_winners_loop pbc_pubkey (top_M_winners self) [], self).


  (** *** PBCVerifier *)

Record PBCVerifier : Type := mkPBC {
    pbc_pubkey : key;
    pbc_privkey : key;
    all_encrypted_winners : list (loc * Z);
    all_decrypted_commitments : list (loc * Z);
    final_winners : list (loc * Z);
    random_values : list Z;
    vector_commitment : option Z
  }.

  (** [PBCVerifier()], given the key pair [generate_keys()] returned. *)
Definition PBCVerifier_init (keys : key * key) : PBCVerifier :=
    mkPBC (fst keys) (snd keys) [] [] [] [] None.

Definition set_all_encrypted_winners (ws : list (loc * Z))
    (self : PBCVerifier) : PBCVerifier :=
    mkPBC (pbc_pubkey self) (pbc_privkey self) ws
          (all_decrypted_commitments self) (final_winners self)
          (random_values self) (vector_commitment self).

Definition set_all_decrypted_commitments (dc : list (loc * Z))
    (self : PBCVerifier) : PBCVerifier :=
    mkPBC (pbc_pubkey self) (pbc_privkey self) (all_encrypted_winners self)
          dc (final_winners self) (random_values self)
          (vector_commitment self).

Definition set_final_winners (ws : list (loc * Z)) (self : PBCVerifier)
    : PBCVerifier :=
    mkPBC (pbc_pubkey self) (pbc_privkey self) (all_encrypted_winners self)
          (all_decrypted_commitments self) ws (random_values self)
          (vector_commitment self).

Definition set_random_values (rs : list Z) (self : PBCVerifier)
    : PBCVerifier :=
    mkPBC (pbc_pubkey self) (pbc_privkey self) (all_encrypted_winners self)
          (all_decrypted_commitments self) (final_winners self) rs
          (vector_commitment self).

Definition set_vector_commitment (v : option Z) (self : PBCVerifier)
    : PBCVerifier :=
    mkPBC (pbc_pubkey self) (pbc_privkey self) (all_encrypted_winners self)
          (all_decrypted_commitments self) (final_winners self)
          (random_values self) v.

Definition collect_encrypted_winners (cbc_encrypted_winners : list (loc * Z))
    (self : PBCVerifier) : PBCVerifier :=
    set_all_encrypted_winners
      (all_encrypted_winners self ++ cbc_encrypted_winners) self.

Fixpoint decrypt_all_commitments_loop (ws : list (loc * Z))
    (self : PBCVerifier) : result unit * PBCVerifier :=
    match ws with
    | [] => (Return tt, self)
    | (user, encrypted) :: ws' =>
        match decrypt encrypted (pbc_privkey self) with
        | Raise x => (Raise x, self)
        | Return decrypted =>
            decrypt_all_commitments_loop ws'
              (set_all_decrypted_commitments
                 (all_decrypted_commitments self ++ [(user, decrypted)]) self)
        end
    end.

Definition decrypt_all_commitments (self : PBCVerifier)
    : result (list (loc * Z)) * PBCVerifier :=
    let self0 := set_all_decrypted_commitments [] self in
    match decrypt_all_commitments_loop (all_encrypted_winners self0) self0 with
    | (Return _, self') => (Return (all_decrypted_commitments self'), self')
    | (Raise x, self') => (Raise x, self')
    end.

Definition select_final_winners (M : Z) (self : PBCVerifier)
    : list (loc * Z) * PBCVerifier :=
    let sorted_commitments :=
      sorted_desc snd (all_decrypted_commitments self) in
    let self' := set_final_winners (slice_to M sorted_commitments) self in
    (final_winners self', self').

Section RandomValues.

    (** [randint i a b] is what the [i]-th call of [random.randint(a, b)]
        returns. *)
Variable randint : nat -> Z -> Z -> Z.

Definition generate_random_values (M : Z) (self : PBCVerifier)
      : list Z * PBCVerifier :=
      let rs := map (fun i => randint i 1 100) (seq 0 (Z.to_nat M)) in
      (rs, set_random_values rs self).

End RandomValues.

  (** The [for i, (user, commitment) in enumerate(self.final_winners)] loop
      of [compute_vector_commitment]; [i] is the index [enumerate] has
      reached. *)
Fixpoint compute_vector_commitment_loop (p : Z) (i : nat)
    (ws : list (loc * Z)) (self : PBCVerifier) : result unit * PBCVerifier :=
    match ws with
    | [] => (Return tt, self)
    | (user, c) :: ws' =>
        match
          r_i ← index (random_values self) i;
          x ← pow2 c r_i;
          vc ← from_option Return (Raise TypeError) (vector_commitment self);
          mod_ (vc * x) p
        with
        | Raise e => (Raise e, self)
        | Return v =>
            compute_vector_commitment_loop p (S i) ws'
              (set_vector_commitment (Some v) self)
        end
    end.

Definition compute_vector_commitment (p : Z) (self : PBCVerifier)
    : result (option Z) * PBCVerifier :=
    if bool_decide (final_winners self = [])
       || bool_decide (random_values self = [])
    then (Raise MissingInputs, self)
    else
      match compute_vector_commitment_loop p 0 (final_winners self)
              (set_vector_commitment (Some 1) self) with
      | (Return _, self') => (Return (vector_commitment self'), self')
      | (Raise e, self') => (Raise e, self')
      end.

  (** *** Commitment comparison check *)

  (** [verify_commitment_ordering(g, modulus, max_bid)], without its
      printing. *)
Definition verify_commitment_ordering_loop (g modulus max_bid : Z)
    : result (list (Z * Z)) :=
    foldl (fun acc bid =>
             commitments ← acc;
             if bid <=? max_bid
             then c ← pow3 g bid modulus; Return (commitments ++ [(bid, c)])
             else Return commitments)
          (Return []) [50; 100; 150; 200; 250; 300].

Fixpoint is_monotonic (commitments : list (Z * Z)) : bool :=
    match commitments with
    | x :: (y :: _) as rest => (snd x <? snd y) && is_monotonic rest
    | _ => true
    end.

Definition verify_commitment_ordering (g modulus max_bid : Z) : result bool :=
    commitments ← verify_commitment_ordering_loop g modulus max_bid;
    Return (is_monotonic commitments).

  (** *** The auction *)

  (** The bidding phase of one child: [for user in users:
      user.create_commitment(g); user.encrypt_commitment(cbc.pubkey)]. *)
Fixpoint bidding_phase (g : Z) (pubkey : key) (us : list loc) (h : store)
    : result store :=
    match us with
    | [] => Return h
    | user :: us' =>
        match h !! user with
        | None => bidding_phase g pubkey us' h
        | Some u =>
            match create_commitment g None u with
            | (Raise x, _) => Raise x
            | (Return _, u1) =>
                match encrypt_commitment pubkey u1 with
                | (Raise x, _) => Raise x
                | (Return _, u2) =>
                    bidding_phase g pubkey us' (<[user := u2]> h)
                end
            end
        end
    end.

  (** One iteration of the CBC round of [run_auction], for a child whose
      bidders are given as [(user_id, bid_value)] pairs instead of being
      drawn at random: the users are created and registered, they commit and
      encrypt, the verifier decrypts, selects and forwards. *)
Definition cbc_round (g M : Z) (bids : list (string * Z))
    (cbc : CBCVerifier) (h : store) (pbc : PBCVerifier)
    : result (CBCVerifier * store * PBCVerifier) :=
    let us := seq (length h) (length bids) in
    let h := h ++ map (fun b => User_init (fst b) (snd b)) bids in
    let cbc := foldl (fun c user => register_user user c) cbc us in
    h ← bidding_phase g (cbc_pubkey cbc) us h;
    let '(r, cbc) := decrypt_commitments h cbc in
    _ ← r;
    let '(_, cbc) := select_top_M M cbc in
    let '(r, cbc) := encrypt_winners_for_pbc (pbc_pubkey pbc) cbc in
    encrypted_winners ← r;
    Return (cbc, h, collect_encrypted_winners encrypted_winners pbc).

Fixpoint cbc_rounds (g M : Z)
    (cbcs : list (CBCVerifier * list (string * Z)))
    (h : store) (pbc : PBCVerifier) : result (store * PBCVerifier) :=
    match cbcs with
    | [] => Return (h, pbc)
    | (cbc, bids) :: cbcs' =>
        '(_, h, pbc) ← cbc_round g M bids cbc h pbc;
        cbc_rounds g M cbcs' h pbc
    end.

  (** [run_auction] up to and including [select_final_winners]: the store
      of users, the verifier and the final winners. *)
Definition auction_winners (pbc_keys : key * key)
    (cbcs : list ((key * key) * list (string * Z))) (M : Z)
    : result (store * PBCVerifier * list (loc * Z)) :=
    let g := vc_keygen 1 100 in
    let pbc_verifier := PBCVerifier_init pbc_keys in
    let cbcs :=
      imap (fun i c => (CBCVerifier_init
                          (String.append "CBC_" (String (Ascii.ascii_of_nat (65 + i)%nat) EmptyString))
                          (fst c), snd c)) cbcs in
    '(h, pbc_verifier) ← cbc_rounds g M cbcs [] pbc_verifier;
    let '(r, pbc_verifier) := decrypt_all_commitments pbc_verifier in
    _ ← r;
    let '(final_winners, pbc_verifier) :=
      select_final_winners M pbc_verifier in
    Return (h, pbc_verifier, final_winners).

  (** The identities of a list of winners. *)
Definition winner_ids (h : store) (ws : list (loc * Z)) : list string :=
    omap (fun w => user_id <$> h !! fst w) ws.

Section RunAuction.

Variable randint : nat -> Z -> Z -> Z.

    (** [run_auction]: the final winners and the vector commitment. *)
Definition run_auction (pbc_keys : key * key)
      (cbcs : list ((key * key) * list (string * Z))) (M : Z)
      : result (list (loc * Z) * option Z) :=
      '(_, pbc_verifier, final_winners) ← auction_winners pbc_keys cbcs M;
      let '(_, pbc_verifier) :=
        generate_random_values randint M pbc_verifier in
      let p := snd (pbc_pubkey pbc_verifier) in
      let '(r, _) := compute_vector_commitment p pbc_verifier in
      vector_commitment ← r;
      Return (final_winners, vector_commitment).

End RunAuction.

End ProposeAuction.

(** ** The plaintext baseline, [ordinal_auction.py] *)

Module OrdinalAuction.

Record Bidder : Type := mkBidder {
    id : string;
    bid_value : Z
  }.

Record ChildBlockchain : Type := mkChild {
    child_id : string;
    bidders : list Bidder;
    child_M : Z;
    top_bidders : list Bidder
  }.

Definition ChildBlockchain_init (id : string) (bidders : list Bidder)
    (M : Z) : ChildBlockchain :=
    mkChild id bidders M [].

Definition select_top_M (self : ChildBlockchain)
    : list Bidder * ChildBlockchain :=
    let sorted_bidders := sorted_desc bid_value (bidders self) in
    let top := slice_to (child_M self) sorted_bidders in
    (top, mkChild (child_id self) (bidders self) (child_M self) top).

Record ParentBlockchain : Type := mkParent {
    child_chains : list ChildBlockchain;
    parent_M : Z;
    all_winners : list Bidder
  }.

Definition ParentBlockchain_init (child_chains : list ChildBlockchain)
    (M : Z) : ParentBlockchain :=
    mkParent child_chains M [].

  (** [for child in self.child_chains]: each child selects (and records)
      its winners, which are appended to [all_winners]. *)
Fixpoint collect_winners_loop (todo done : list ChildBlockchain)
    (all_winners : list Bidder) : list ChildBlockchain * list Bidder :=
    match todo with
    | [] => (done, all_winners)
    | child :: todo' =>
        let '(winners, child') := select_top_M child in
        collect_winners_loop todo' (done ++ [child']) (all_winners ++ winners)
    end.

Definition collect_winners (self : ParentBlockchain) : ParentBlockchain :=
    let '(children, winners) :=
      collect_winners_loop (child_chains self) [] (all_winners self) in
    mkParent children (parent_M self) winners.

Definition determine_global_winners (self : ParentBlockchain)
    : list Bidder :=
    let sorted_winners := sorted_desc bid_value (all_winners self) in
    slice_to (parent_M self) sorted_winners.

  (** [run_simple_auction(..., silent=True)], for children whose bidders
      are given as [(id, bid_value)] pairs instead of being drawn at
      random. *)
Definition run_simple_auction (groups : list (list (string * Z))) (M : Z)
    : list Bidder :=
    let child_blockchains :=
      imap (fun i bids =>
              ChildBlockchain_init
                (String.append "CBC" (String (Ascii.ascii_of_nat (65 + i)%nat) EmptyString))
                (map (fun b => mkBidder (fst b) (snd b)) bids) M) groups in
    let parent := ParentBlockchain_init child_blockchains M in
    let parent := collect_winners parent in
    determine_global_winners parent.

End OrdinalAuction.

(** ** Specification vocabulary *)

Section Vocabulary.

Import ProposeAuction.

  (** The contract of sympy's [randprime(a, b)] on a range that holds a
      prime: every call returns a prime of [a, b). *)
Definition randprime_ok (randprime : nat -> Z -> Z -> Z) (a b : Z) : Prop :=
    forall i : nat, Z.prime (randprime i a b) /\ a <= randprime i a b < b.

  (** The two ranges [generate_keys(bit_length)] draws from. *)
Definition randprime_ok_for (randprime : nat -> Z -> Z -> Z)
    (bit_length : Z) : Prop :=
    randprime_ok randprime (2 ^ (bit_length / 2 - 1)) (2 ^ (bit_length / 2) - 1)
    /\ randprime_ok randprime 3 1000.

  (** What makes [(e, n)] and [(d, n)] an RSA key pair. *)
Definition rsa_keys (keys : key * key) : Prop :=
    exists p q : Z,
      Z.prime p /\ Z.prime q /\ p <> q /\
      snd (fst keys) = p * q /\ snd (snd keys) = p * q /\
      0 <= fst (fst keys) /\ 0 <= fst (snd keys) /\
      (fst (fst keys) * fst (snd keys)) mod ((p - 1) * (q - 1)) = 1.

  (** [e_0 = 65537], and [e_(t+1)] is the [t]-th value the coprimality
      loop draws, its first call of [randprime] being call number [i]. *)
Definition e_candidate (randprime : nat -> Z -> Z -> Z) (i t : nat) : Z :=
    match t with
    | O => 65537
    | S t' => randprime (i + t')%nat 3 1000
    end.

(** One step of the vector commitment: the accumulator times the winner's
    value raised to its coefficient, reduced modulo [p]. *)
Definition vc_step (p : Z) (acc : Z) (wr : (loc * Z) * Z) : Z :=
  (acc * snd (fst wr) ^ snd wr) mod p.

(** The left-to-right running product starting from 1, the [i]-th winner
    paired with the [i]-th coefficient. *)
Definition running_product (p : Z) (ws : list (loc * Z)) (rs : list Z) : Z :=
  foldl (vc_step p) 1 (zip ws rs).

(** [c_1 ^ r_1 * ... * c_k ^ r_k], without reduction. *)
Definition plain_product (ws : list (loc * Z)) (rs : list Z) : Z :=
  foldl (fun acc wr => acc * snd (fst wr) ^ snd wr) 1 (zip ws rs).

(** The states a [CBCVerifier] can be in: the one its constructor builds,
    and those its methods lead to. *)
Inductive cbc_reachable : CBCVerifier -> Prop :=
  | reach_init (cbc_id : string) (keys : key * key) :
      cbc_reachable (CBCVerifier_init cbc_id keys)
  | reach_register_user (user : loc) (self : CBCVerifier) :
      cbc_reachable self -> cbc_reachable (register_user user self)
  | reach_decrypt_commitments (h : store) (self : CBCVerifier) :
      cbc_reachable self -> cbc_reachable (snd (decrypt_commitments h self))
  | reach_select_top_M (M : Z) (self : CBCVerifier) :
      cbc_reachable self -> cbc_reachable (snd (select_top_M M self))
  | reach_encrypt_winners_for_pbc (pbc_pubkey : key) (self : CBCVerifier) :
      cbc_reachable self ->
      cbc_reachable (snd (encrypt_winners_for_pbc pbc_pubkey self)).

(** The commitment [run_auction] makes a user compute for a bid: the
    generator of [vc_keygen] and the default modulus. *)
Definition commit_value (bid : Z) : Z :=
  vc_keygen 1 100 ^ bid mod default_modulus.

(** Key pairs that [generate_keys] can return. *)
Definition generated (keys : key * key) : Prop :=
  exists (randprime : nat -> Z -> Z -> Z) (fuel : nat) (bit_length : Z),
    randprime_ok_for randprime bit_length
    /\ generate_keys randprime fuel bit_length = Some (Return keys).

(** A user who has committed to its bid and encrypted the commitment under
    [pubkey]. *)
Definition committed_user (pubkey : key) (b : string * Z) : User :=
  mkUser (fst b) (snd b) (Some (commit_value (snd b)))
         (Some (commit_value (snd b) ^ fst pubkey mod snd pubkey)).

(** The bidders of each group next to the location their [User] gets, the
    first user being allocated at [k]. *)
Fixpoint entries (k : nat) (groups : list (list (string * Z)))
  : list (list (loc * (string * Z))) :=
  match groups with
  | [] => []
  | g :: groups' =>
      zip (seq k (length g)) g :: entries (k + length g) groups'
  end.

Definition bid_of (e : loc * (string * Z)) : Z := snd (snd e).

(** The top [M] of every group by bid, child after child. *)
Definition tops (M : Z) (es : list (list (loc * (string * Z))))
  : list (loc * (string * Z)) :=
  concat (map (fun g => slice_to M (sorted_desc bid_of g)) es).

(** The [Bidder] of the baseline and the decrypted commitment of the
    protocol that stand for one bidder. *)
Definition bidder_of (e : loc * (string * Z)) : OrdinalAuction.Bidder :=
  OrdinalAuction.mkBidder (fst (snd e)) (snd (snd e)).

Definition commitment_of (e : loc * (string * Z)) : loc * Z :=
  (fst e, commit_value (bid_of e)).

(** The commitment is strictly increasing over the bids [bs]. *)
Definition increasing_on (bs : list Z) : Prop :=
  forall b1 b2, b1 ∈ bs -> b2 ∈ bs -> b1 < b2 ->
    commit_value b1 < commit_value b2.

(** The users a child's bidders have become once they have committed. *)
Definition committed_group (c : CBCVerifier * list (string * Z)) : list User :=
  map (committed_user (cbc_pubkey (fst c))) (snd c).

(** A fresh child verifier with an RSA key pair whose bidders are within
    the safe range, below the verifier's modulus once committed, and among
    the bids [bs]. *)
Definition child_ready (bs : list Z) (c : CBCVerifier * list (string * Z))
  : Prop :=
  exists (cbc_id : string) (keys : key * key),
    fst c = CBCVerifier_init cbc_id keys /\ rsa_keys keys
    /\ Forall (fun b => 0 <= snd b <= 1000
                        /\ commit_value (snd b) < snd (fst keys)
                        /\ snd b ∈ bs) (snd c).

End Vocabulary.

(** [increasing_on], decided on a concrete list of bids. *)
Definition increasing_on_b (bs : list Z) : bool :=
  forallb (fun b1 =>
             forallb (fun b2 =>
                        implb (b1 <? b2) (commit_value b1 <? commit_value b2))
               bs) bs.

(** ** Concrete inputs *)

Module Examples.

Import ProposeAuction.

(** A run of [randprime] that returns [p], then [q] from the second call
    on, and 3 when asked for a prime of [3, 1000). *)
Definition two_primes (p q : Z) : nat -> Z -> Z -> Z :=
  fun i a b => if a =? 3 then 3 else match i with O => p | S _ => q end.

(** A run of [randprime] that always returns 5, the only prime of
    [4, 7). *)
Definition only_5 : nat -> Z -> Z -> Z := fun _ _ _ => 5.

(** The key pairs drawn from the primes 131 and 137, 139 and 149, 151 and
    157. *)
Definition keys_a : key * key := ((65537, 17947), (12113, 17947)).
Definition keys_b : key * key := ((65537, 20711), (15233, 20711)).
Definition keys_pbc : key * key := ((65537, 23707), (21473, 23707)).

(** Two children with two bidders each, all bids small. *)
Definition small_bids : list ((key * key) * list (string * Z)) :=
  [(keys_a, [("A", 3); ("B", 9)]); (keys_b, [("C", 5); ("D", 12)])].

(** One child whose first bidder bids 31. *)
Definition wrapping_bids : list ((key * key) * list (string * Z)) :=
  [(keys_a, [("A", 31); ("B", 1)])].

(** A child verifier that has registered two users and decrypted their
    commitments. *)
Definition cbc_decrypted : CBCVerifier :=
  snd (decrypt_commitments
         (map (committed_user (fst keys_a)) [("A", 3); ("B", 9)])
         (register_user 1%nat
            (register_user 0%nat (CBCVerifier_init "CBC_A" keys_a)))).

(** The same verifier after selecting its top bidder. *)
Definition cbc_selected : CBCVerifier := snd (select_top_M 1 cbc_decrypted).

(** A parent verifier with two final winners and two coefficients, one
    with a single coefficient, and a fresh one. *)
Definition pbc_ready : PBCVerifier :=
  mkPBC (fst keys_pbc) (snd keys_pbc) [] [] [(0%nat, 5); (1%nat, 3)] [2; 4]
        None.

Definition pbc_short : PBCVerifier :=
  mkPBC (fst keys_pbc) (snd keys_pbc) [] [] [(0%nat, 5); (1%nat, 3)] [2]
        (Some 9).

Definition pbc_fresh : PBCVerifier := PBCVerifier_init keys_pbc.

End Examples.

(** ** Further vocabulary *)

(** The stable merge of two descending lists: the larger head goes first,
    and on equal keys the head of the left list. *)
Fixpoint merge_desc {A} (key : A -> Z) (a : list A) : list A -> list A :=
  fix go (b : list A) : list A :=
    match a, b with
    | [], _ => b
    | _, [] => a
    | x :: a', y :: b' =>
        if key y <=? key x then x :: merge_desc key a' b else y :: go b'
    end.

(** The contract of [random.randint(a, b)]: a value of [a, b]. *)
Definition randint_ok (randint : nat -> Z -> Z -> Z) (a b : Z) : Prop :=
  forall i : nat, a <= randint i a b <= b.

(** What [decrypt_commitments] computes for one roster entry under the
    private key [(d, n)]: nothing for a user without ciphertext. *)
Definition decrypted_entry (h : ProposeAuction.store)
  (privkey : ProposeAuction.key) (user : ProposeAuction.loc)
  : option (ProposeAuction.loc * Z) :=
  c ← h !! user ≫= ProposeAuction.encrypted_commitment;
  Some (user, c ^ fst privkey mod snd privkey).

Module MoreExamples.

Import ProposeAuction.

(** A run of [randint] that always returns 7. *)
Definition always_7 : nat -> Z -> Z -> Z := fun _ _ _ => 7.

(** A user that has committed to the bid 5, and one that has not. *)
Definition user_committed : User := mkUser "u" 5 (Some 32) None.
Definition user_new : User := User_init "v" 5.

(** A store with one user who encrypted its commitment and one who did
    not, and a child verifier that registered both. *)
Definition store_partial : store :=
  [committed_user (fst Examples.keys_a) ("A", 3); User_init "B" 9].

Definition cbc_partial : CBCVerifier :=
  register_user 1%nat
    (register_user 0%nat (CBCVerifier_init "CBC_A" Examples.keys_a)).

(** A parent verifier holding three decrypted commitments. *)
Definition pbc_pool : PBCVerifier :=
  mkPBC (fst Examples.keys_pbc) (snd Examples.keys_pbc) []
        [(0%nat, 8); (1%nat, 512); (2%nat, 32)] [] [] None.

(** A parent verifier whose private key has the modulus 0, holding one
    ciphertext and an older decryption. *)
Definition pbc_broken : PBCVerifier :=
  mkPBC (65537, 0) (5, 0) [(0%nat, 8)] [(1%nat, 1)] [] [] None.

(** One child whose bidders bid 16 and 15. *)
Definition truncated_bids : list ((key * key) * list (string * Z)) :=
  [(Examples.keys_a, [("A", 16); ("B", 15)])].

(** The baseline on two children. *)
Definition two_groups : list (list (string * Z)) :=
  [[("A", 10); ("B", 90)]; [("C", 50); ("D", 200)]].

Definition parent_two : OrdinalAuction.ParentBlockchain :=
  OrdinalAuction.ParentBlockchain_init
    [OrdinalAuction.ChildBlockchain_init "CBCA"
       [OrdinalAuction.mkBidder "A" 10; OrdinalAuction.mkBidder "B" 90] 1]
    1.

End MoreExamples.

(** ** The bidder generator of [ordinal_auction.py] *)

Module OrdinalGenerator.

Import OrdinalAuction.

Section Generator.

(** [randint i a b] is what the [i]-th call of [random.randint(a, b)]
    returns. *)
Variable randint : nat -> Z -> Z -> Z.

(** [generate_random_bidders(chain_id, n)], [k] calls of [randint] having
    been made before: bidder [i], for [i] from 1 to [n], is named
    [chain_id_Bidder<i>] and bids what the next call returns. *)
Definition generate_random_bidders (k : nat) (chain_id : string) (n : Z)
  : list Bidder :=
  map (fun j =>
         mkBidder
           (String.append chain_id
              (String.append "_Bidder" (pretty (Z.of_nat (S j)))))
           (randint (k + j)%nat 50 300))
      (seq 0 (Z.to_nat n)).

End Generator.

End OrdinalGenerator.

(** ** The driver of [trials/propose-test-verify.py] *)

Module ProposeTestVerify.

Import ProposeAuction.

Section Driver.

Variable randint : nat -> Z -> Z -> Z.

(** [generate_random_bidders_for_auction(chain_id, n)], [k] calls of
    [randint] having been made before. *)
Definition generate_random_bidders_for_auction (k : nat) (chain_id : string)
  (n : Z) : list User :=
  map (fun j =>
         User_init
           (String.append chain_id
              (String.append "_Bidder" (pretty (Z.of_nat (S j)))))
           (randint (k + j)%nat 50 300))
      (seq 0 (Z.to_nat n)).

(** The bidding phase of one child: [for user in users:
    user.create_commitment(g, large_prime);
    user.encrypt_commitment(cbc_verifier.pubkey)]. *)
Fixpoint bidding_phase (g large_prime : Z) (pubkey : key) (us : list loc)
  (h : store) : result store :=
  match us with
  | [] => Return h
  | user :: us' =>
      match h !! user with
      | None => bidding_phase g large_prime pubkey us' h
      | Some u =>
          match create_commitment g (Some large_prime) u with
          | (Raise x, _) => Raise x
          | (Return _, u1) =>
              match encrypt_commitment pubkey u1 with
              | (Raise x, _) => Raise x
              | (Return _, u2) =>
                  bidding_phase g large_prime pubkey us' (<[user := u2]> h)
              end
          end
      end
  end.

(** One iteration of the CBC round; [k] counts the calls of [randint]. *)
Definition cbc_round (g large_prime M : Z) (k : nat) (bidder_count : Z)
  (cbc : CBCVerifier) (h : store) (pbc : PBCVerifier)
  : result (nat * store * PBCVerifier) :=
  let users :=
    generate_random_bidders_for_auction k (cbc_id cbc) bidder_count in
  let us := seq (length h) (length users) in
  let h := h ++ users in
  let cbc := foldl (fun c user => register_user user c) cbc us in
  h ← bidding_phase g large_prime (cbc_pubkey cbc) us h;
  let '(r, cbc) := decrypt_commitments h cbc in
  _ ← r;
  let '(_, cbc) := select_top_M M cbc in
  let '(r, cbc) := encrypt_winners_for_pbc (pbc_pubkey pbc) cbc in
  encrypted_winners ← r;
  Return ((k + length users)%nat, h,
          collect_encrypted_winners encrypted_winners pbc).

(** [for i, cbc_verifier in enumerate(cbc_verifiers)], from index [i]
    on. *)
Fixpoint cbc_rounds (g large_prime M : Z) (bidder_counts : list Z)
  (i k : nat) (cbcs : list CBCVerifier) (h : store) (pbc : PBCVerifier)
  : result (nat * store * PBCVerifier) :=
  match cbcs with
  | [] => Return (k, h, pbc)
  | cbc :: cbcs' =>
      bidder_count ← index bidder_counts i;
      '(k, h, pbc) ← cbc_round g large_prime M k bidder_count cbc h pbc;
      cbc_rounds g large_prime M bidder_counts (S i) k cbcs' h pbc
  end.

(** [run_auction_with_generated_data(bidder_counts,
    num_child_blockchains, M, silent=True)], given the key pairs the
    constructors of the verifiers obtain: [pbc_keys] for the parent and
    [cbc_keys i] for child [i].  The letter [chr(65 + i)] of a child is
    modelled for the code points below 128.  The result is the pair the
    function returns, [None] included. *)
Definition run_auction_with_generated_data (pbc_keys : key * key)
  (cbc_keys : nat -> key * key) (bidder_counts : list Z)
  (num_child_blockchains M : Z)
  : result (option (list (loc * Z)) * option Z) :=
  let g := vc_keygen 1 100 in
  let large_prime := 2 ^ 31 - 1 in
  ordering_preserved ← verify_commitment_ordering g large_prime 300;
  if negb ordering_preserved then Return (None, None)
  else
    let pbc_verifier := PBCVerifier_init pbc_keys in
    let cbc_verifiers :=
      map (fun i =>
             CBCVerifier_init
               (String.append "CBC"
                  (String (Ascii.ascii_of_nat (65 + i)) EmptyString))
               (cbc_keys i))
          (seq 0 (Z.to_nat num_child_blockchains)) in
    '(k, h, pbc_verifier) ←
      cbc_rounds g large_prime M bidder_counts 0 0 cbc_verifiers []
        pbc_verifier;
    let '(r, pbc_verifier) := decrypt_all_commitments pbc_verifier in
    _ ← r;
    let '(final_winners, pbc_verifier) :=
      select_final_winners M pbc_verifier in
    let '(_, pbc_verifier) :=
      generate_random_values (fun i => randint (k + i)%nat) M pbc_verifier in
    let p := snd (pbc_pubkey pbc_verifier) in
    let '(r, _) := compute_vector_commitment p pbc_verifier in
    vector_commitment ← r;
    Return (Some final_winners, vector_commitment).

End Driver.

End ProposeTestVerify.

(** * Properties *)

(** ** Arithmetic of the primitives *)

Section Arithmetic.

Lemma pow3_nonneg (b e m : Z) :
    m <> 0 -> 0 <= e -> pow3 b e m = Return (b ^ e mod m).
Proof.
    intros Hm He. unfold pow3.
    destruct (Z.eqb_spec m 0) as [|_]; [done|].
    destruct (Z.leb_spec 0 e) as [_|]; [|lia].
    by rewrite Zpow_mod_correct.
Qed.

Lemma pow3_inverse (e phi : Z) :
    2 <= phi -> Z.coprime e phi ->
    exists d, pow3 e (-1) phi = Return d /\ 0 <= d < phi /\ (d * e) mod phi = 1.
Proof.
    intros Hphi Hco. exists (Z.invmod e phi). unfold pow3.
    destruct (Z.eqb_spec phi 0) as [|_]; [lia|].
    change (0 <=? -1) with false. cbv iota.
    unfold Z.coprime in Hco. rewrite Hco. change (1 =? 1) with true. cbv iota.
    change (- -1) with 1.
    rewrite Zpow_mod_correct, Z.pow_1_r, Z.mod_invmod by lia.
    split; [done|]. split.
    - rewrite <- (Z.mod_invmod phi e). apply Z.mod_pos_bound. lia.
    - by apply Z.invmod_coprime.
Qed.

Lemma no_divisor_sound (p : Z) (fuel : nat) : forall n k,
  no_divisor fuel n p = true -> n <= k < n + Z.of_nat fuel -> p mod k <> 0.
Proof.
  induction fuel as [|fuel IH]; intros n k Hno Hk; [lia|].
  simpl in Hno. apply andb_prop in Hno as [Hn Hno].
  destruct (Z.eq_dec k n) as [->|Hne].
  - by apply negb_true_iff, Z.eqb_neq in Hn.
  - apply (IH (n + 1)); [done|lia].
Qed.

Lemma prime_b_sound (p : Z) : prime_b p = true -> Z.prime p.
Proof.
  unfold prime_b. intros [Hp Hall]%andb_prop.
  apply Z.ltb_lt in Hp. split; [done|].
  intros n Hn Hdiv.
  apply (no_divisor_sound p _ 2 n Hall); [lia|].
  apply Z.mod_divide; [lia|done].
Qed.

(** Exponents congruent to 1 modulo [p - 1] act as the identity modulo a
      prime [p]. *)
Lemma pow_mod_prime (p m k : Z) :
    Z.prime p -> 0 <= k -> m ^ (1 + k * (p - 1)) mod p = m mod p.
Proof.
    intros Hp Hk. pose proof (Z.prime_ge_2 _ Hp) as Hp2.
    rewrite Z.pow_add_r, Z.pow_1_r by nia.
    destruct (Z.eq_dec (m mod p) 0) as [H0|Hn0].
    - rewrite <- Z.mul_mod_idemp_l, H0 by lia. by rewrite Z.mul_0_l, Z.mod_0_l by lia.
    - rewrite (Z.mul_comm k), Z.pow_mul_r by lia.
      rewrite <- Z.mul_mod_idemp_r, <- Z.mod_pow_l by lia.
      rewrite Z.fermat_nz by done.
      rewrite Z.pow_1_l by lia.
      rewrite Z.mul_mod_idemp_r by lia. by rewrite Z.mul_1_r.
Qed.

  (** The RSA identity: with distinct primes [p] and [q] and exponents that
      are inverse to each other modulo [(p - 1) * (q - 1)], raising to [e]
      and then to [d] is the identity below [p * q]. *)
Lemma rsa_identity (p q e d m : Z) :
    Z.prime p -> Z.prime q -> p <> q -> 0 <= e -> 0 <= d ->
    (e * d) mod ((p - 1) * (q - 1)) = 1 ->
    0 <= m < p * q ->
    (m ^ e mod (p * q)) ^ d mod (p * q) = m.
Proof.
    intros Hp Hq Hpq He Hd Hed Hm.
    pose proof (Z.prime_ge_2 _ Hp) as Hp2.
    pose proof (Z.prime_ge_2 _ Hq) as Hq2.
    assert (Hphi : 0 < (p - 1) * (q - 1)) by nia.
    rewrite Z.mod_pow_l, <- Z.pow_mul_r by lia.
    pose proof (Z.div_mod (e * d) ((p - 1) * (q - 1)) ltac:(lia)) as Hdm.
    rewrite Hed in Hdm.
    assert (Hk : 0 <= (e * d) / ((p - 1) * (q - 1)))
      by (apply Z.div_pos; nia).
    set (k := (e * d) / ((p - 1) * (q - 1))) in *.
    assert (Hmp : m ^ (e * d) mod p = m mod p).
    { replace (e * d) with (1 + (k * (q - 1)) * (p - 1)) by lia.
      apply pow_mod_prime; [done|nia]. }
    assert (Hmq : m ^ (e * d) mod q = m mod q).
    { replace (e * d) with (1 + (k * (p - 1)) * (q - 1)) by lia.
      apply pow_mod_prime; [done|nia]. }
    assert (Hco : Z.coprime p q).
    { apply Z.coprime_prime_l; [done|].
      intros Hdiv. apply Hpq. by apply Z.divide_prime_prime. }
    rewrite (Z.combinecong_complete_coprime_nonneg_nonneg _ p q m m)
      by (done || lia).
    rewrite <- (Z.combinecong_complete_coprime_nonneg_nonneg m p q m m)
      by (done || lia).
    apply Z.mod_small. lia.
Qed.

End Arithmetic.

(** ** Key generation *)

Section KeyGenerationFacts.

Import ProposeAuction.

Variable randprime : nat -> Z -> Z -> Z.

Lemma prime_65537 : Z.prime 65537.
Proof. apply prime_b_sound. by vm_compute. Qed.

Lemma while_q_eq_p_inv fuel lower upper i p q0 q j :
    while_q_eq_p randprime fuel lower upper i p q0 = Some (q, j) ->
    q <> p /\ (q = q0 \/ exists k, q = randprime k lower upper).
Proof.
    revert i q0. induction fuel as [|fuel IH]; intros i q0; simpl; [done|].
    destruct (Z.eqb_spec q0 p) as [->|Hne].
    - intros [Hq [->|Hk]]%IH; eauto.
    - intros [= <- <-]. eauto.
Qed.

Lemma while_phi_mod_e_inv fuel i phi e0 e :
    while_phi_mod_e randprime fuel i phi e0 = Some (Return e) ->
    e <> 0 /\ phi mod e <> 0 /\ (e = e0 \/ exists k, e = randprime k 3 1000).
Proof.
    revert i e0. induction fuel as [|fuel IH]; intros i e0; simpl; [done|].
    unfold mod_. destruct (Z.eqb_spec e0 0) as [->|Hne]; [done|].
    destruct (Z.eqb_spec (phi mod e0) 0) as [Hz|Hnz].
    - intros (? & ? & [->|Hk])%IH; eauto.
    - intros [= <-]. eauto.
Qed.

Lemma generate_keys_sound fuel bit_length keys :
    randprime_ok_for randprime bit_length ->
    generate_keys randprime fuel bit_length = Some (Return keys) ->
    rsa_keys keys.
Proof.
    intros [Hpq He]. unfold generate_keys.
    set (lower := 2 ^ (bit_length / 2 - 1)) in *.
    set (upper := 2 ^ (bit_length / 2) - 1) in *.
    set (p := randprime 0%nat lower upper).
    destruct (while_q_eq_p _ _ _ _ _ _ _) as [[q i]|] eqn:Hq; [|done].
    destruct (while_phi_mod_e _ _ _ _ _) as [[e|x]|] eqn:Hloop; [|done..].
    apply while_q_eq_p_inv in Hq as [Hne Hq].
    apply while_phi_mod_e_inv in Hloop as (He0 & Hmod & Hfrom).
    assert (Hp : Z.prime p) by apply Hpq.
    assert (Hqp : Z.prime q).
    { destruct Hq as [->|[k ->]]; [done|apply Hpq]. }
    assert (Hep : Z.prime e).
    { destruct Hfrom as [->|[k ->]]; [apply prime_65537|apply He]. }
    pose proof (Z.prime_ge_2 _ Hp). pose proof (Z.prime_ge_2 _ Hqp).
    pose proof (Z.prime_ge_2 _ Hep).
    assert (Hco : Z.coprime e ((p - 1) * (q - 1))).
    { apply Z.coprime_prime_l; [done|].
      intros Hdiv. apply Hmod, Z.mod_divide; [lia|done]. }
    assert (Hphi : 2 <= (p - 1) * (q - 1)) by nia.
    destruct (pow3_inverse _ _ Hphi Hco) as (d & -> & Hd & Hinv).
    intros [= <-]. exists p, q. simpl.
    rewrite (Z.mul_comm e d).
    split; [done|]. split; [done|]. split; [congruence|].
    repeat (split; [done || lia|]). done.
Qed.

End KeyGenerationFacts.

Section RoundTrip.

Import ProposeAuction.

Lemma rsa_keys_decrypt_encrypt (keys : key * key) (m : Z) :
    rsa_keys keys -> 0 <= m < snd (fst keys) ->
    encrypt m (fst keys) ≫= (fun c => decrypt c (snd keys)) = Return m.
Proof.
    destruct keys as [[e n] [d n']].
    intros (p & q & Hp & Hq & Hne & Hn & Hn' & He & Hd & Hed) Hm.
    simpl in *. subst n n'.
    pose proof (Z.prime_ge_2 _ Hp). pose proof (Z.prime_ge_2 _ Hq).
    rewrite pow3_nonneg by nia. simpl.
    rewrite pow3_nonneg by nia.
    f_equal. by apply rsa_identity.
Qed.

Lemma rsa_keys_encrypt_decrypt (keys : key * key) (c : Z) :
    rsa_keys keys -> 0 <= c < snd (fst keys) ->
    decrypt c (snd keys) ≫= (fun m => encrypt m (fst keys)) = Return c.
Proof.
    destruct keys as [[e n] [d n']].
    intros (p & q & Hp & Hq & Hne & Hn & Hn' & He & Hd & Hed) Hm.
    simpl in *. subst n n'.
    pose proof (Z.prime_ge_2 _ Hp). pose proof (Z.prime_ge_2 _ Hq).
    rewrite pow3_nonneg by nia. simpl.
    rewrite pow3_nonneg by nia.
    f_equal. apply rsa_identity; try done. by rewrite Z.mul_comm.
Qed.

End RoundTrip.

(** C3. For every key pair that [generate_keys] returns and every [m] with
    [0 <= m < n], decrypting the encryption of [m] gives [m] back, and
    encrypting the decryption of [m] gives [m] back. *)
Theorem encrypt_decrypt_round_trip
  (randprime : nat -> Z -> Z -> Z) (fuel : nat) (bit_length : Z)
  (pubkey privkey : ProposeAuction.key) (m : Z) :
  randprime_ok_for randprime bit_length ->
  ProposeAuction.generate_keys randprime fuel bit_length
    = Some (Return (pubkey, privkey)) ->
  0 <= m < snd pubkey ->
  ProposeAuction.encrypt m pubkey
    ≫= (fun c => ProposeAuction.decrypt c privkey) = Return m
  /\ ProposeAuction.decrypt m privkey
    ≫= (fun c => ProposeAuction.encrypt c pubkey) = Return m.
Proof.
  intros Hok Hgen Hm.
  pose proof (generate_keys_sound _ _ _ _ Hok Hgen) as Hkeys.
  split.
  - by apply (rsa_keys_decrypt_encrypt (pubkey, privkey)).
  - by apply (rsa_keys_encrypt_decrypt (pubkey, privkey)).
Qed.

(** ** The retry loops of key generation *)

Section RetryLoops.

Import ProposeAuction.

Variable randprime : nat -> Z -> Z -> Z.
Variables lower upper : Z.

Lemma while_q_eq_p_skip (p : Z) (k fuel i : nat) :
    (forall t, (t < k)%nat -> randprime (i + t)%nat lower upper = p) ->
    while_q_eq_p randprime (k + fuel) lower upper i p p
    = while_q_eq_p randprime fuel lower upper (i + k)%nat p p.
Proof.
    revert i. induction k as [|k IH]; intros i Hsame.
    - by rewrite Nat.add_0_r.
    - simpl. rewrite Z.eqb_refl.
      pose proof (Hsame 0%nat ltac:(lia)) as H0.
      rewrite Nat.add_0_r in H0. rewrite H0, IH.
      + f_equal. lia.
      + intros t Ht. rewrite <- (Hsame (S t)) by lia. f_equal. lia.
Qed.

Lemma while_q_eq_p_exit (p : Z) (fuel i : nat) :
    randprime i lower upper <> p ->
    while_q_eq_p randprime (S (S fuel)) lower upper i p p
    = Some (randprime i lower upper, S i).
Proof.
    intros Hne. simpl. rewrite Z.eqb_refl.
    by destruct (Z.eqb_spec (randprime i lower upper) p).
Qed.

Lemma while_q_eq_p_none (p : Z) (fuel i : nat) :
    (forall t, (S t < fuel)%nat -> randprime (i + t)%nat lower upper = p) ->
    while_q_eq_p randprime fuel lower upper i p p = None.
Proof.
    revert i. induction fuel as [|fuel IH]; intros i Hsame; [done|].
    simpl. rewrite Z.eqb_refl.
    destruct fuel as [|fuel]; [done|].
    pose proof (Hsame 0%nat ltac:(lia)) as H0.
    rewrite Nat.add_0_r in H0. rewrite H0. apply IH.
    intros t Ht. rewrite <- (Hsame (S t)) by lia. f_equal. lia.
Qed.

Lemma while_phi_mod_e_skip (phi : Z) (i j fuel t : nat) :
    (forall s, (s < j)%nat ->
       e_candidate randprime i (t + s) <> 0
       /\ phi mod e_candidate randprime i (t + s) = 0) ->
    while_phi_mod_e randprime (j + fuel) (i + t) phi
      (e_candidate randprime i t)
    = while_phi_mod_e randprime fuel (i + (t + j)) phi
        (e_candidate randprime i (t + j)).
Proof.
    revert t. induction j as [|j IH]; intros t Hdiv.
    - by rewrite Nat.add_0_r.
    - simpl. unfold mod_.
      destruct (Hdiv 0%nat ltac:(lia)) as [Hnz Hz].
      rewrite Nat.add_0_r in Hnz, Hz.
      destruct (Z.eqb_spec (e_candidate randprime i t) 0) as [|_]; [done|].
      rewrite Hz. simpl.
      change (randprime (i + t)%nat 3 1000)
        with (e_candidate randprime i (S t)).
      replace (S (i + t)) with (i + S t)%nat by lia.
      rewrite IH.
      + by replace (S t + j)%nat with (t + S j)%nat by lia.
      + intros s Hs. replace (S t + s)%nat with (t + S s)%nat by lia.
        apply Hdiv. lia.
Qed.

Lemma while_phi_mod_e_exit (phi e : Z) (fuel i : nat) :
    e <> 0 -> phi mod e <> 0 ->
    while_phi_mod_e randprime (S fuel) i phi e = Some (Return e).
Proof.
    intros Hnz Hmod. simpl. unfold mod_.
    destruct (Z.eqb_spec e 0) as [|_]; [done|].
    by destruct (Z.eqb_spec (phi mod e) 0).
Qed.

Lemma while_phi_mod_e_none (phi : Z) (i fuel t : nat) :
    (forall s, (s < fuel)%nat ->
       e_candidate randprime i (t + s) <> 0
       /\ phi mod e_candidate randprime i (t + s) = 0) ->
    while_phi_mod_e randprime fuel (i + t) phi (e_candidate randprime i t)
    = None.
Proof.
    intros Hdiv.
    rewrite <- (Nat.add_0_r fuel), while_phi_mod_e_skip by done.
    done.
Qed.

End RetryLoops.

(** C5 (as amended).  [generate_keys] has no retry bound and no
    exhaustion error.  Its first loop runs until [randprime] yields a [q]
    different from [p], its second until it yields an [e] that does not
    divide [phi]; when that happens after [k] repeated draws of [p] and
    [j] rejected exponents, the function returns an RSA key pair after
    exactly that many iterations, whatever [k] and [j] are.  When
    [randprime] keeps returning [p], the function never returns. *)
Theorem generate_keys_retries_without_bound
  (randprime : nat -> Z -> Z -> Z) (bit_length : Z) :
  randprime_ok_for randprime bit_length ->
  let lower := 2 ^ (bit_length / 2 - 1) in
  let upper := 2 ^ (bit_length / 2) - 1 in
  let p := randprime 0%nat lower upper in
  (forall k j : nat,
      (forall t, (t < k)%nat -> randprime (S t) lower upper = p) ->
      randprime (S k) lower upper <> p ->
      let q := randprime (S k) lower upper in
      let phi := (p - 1) * (q - 1) in
      (forall s, (s < j)%nat ->
         phi mod e_candidate randprime (k + 2) s = 0) ->
      phi mod e_candidate randprime (k + 2) j <> 0 ->
      exists keys,
        rsa_keys keys
        /\ fst keys = (e_candidate randprime (k + 2) j, p * q)
        /\ forall fuel,
             ProposeAuction.generate_keys randprime fuel bit_length
             = if ((k + 2 <=? fuel) && (j + 1 <=? fuel))%nat
               then Some (Return keys) else None)
  /\ ((forall t, randprime (S t) lower upper = p) ->
      forall fuel,
        ProposeAuction.generate_keys randprime fuel bit_length = None).
Proof.
  intros Hok lower upper p. pose proof Hok as [Hpq He]. split.
  - intros k j Hsame Hfresh q phi Hdiv Hstop.
    assert (Hcand : forall s, Z.prime (e_candidate randprime (k + 2) s)).
    { intros [|s]; [apply prime_65537|apply He]. }
    assert (Hcand0 : forall s, e_candidate randprime (k + 2) s <> 0).
    { intros s. pose proof (Z.prime_ge_2 _ (Hcand s)). lia. }
    assert (Hp : Z.prime p) by apply Hpq.
    assert (Hq : Z.prime q) by apply Hpq.
    pose proof (Z.prime_ge_2 _ Hp). pose proof (Z.prime_ge_2 _ Hq).
    assert (Hphi : 2 <= phi) by (fold q in Hfresh; unfold phi; nia).
    assert (Hco : Z.coprime (e_candidate randprime (k + 2) j) phi).
    { apply Z.coprime_prime_l; [done|].
      intros Hd. apply Hstop, Z.mod_divide; [apply Hcand0|done]. }
    destruct (pow3_inverse _ _ Hphi Hco) as (d & Hpow & Hd & Hinv).
    exists ((e_candidate randprime (k + 2) j, p * q), (d, p * q)).
    assert (Hrun : forall fuel,
      ProposeAuction.generate_keys randprime fuel bit_length
      = if ((k + 2 <=? fuel) && (j + 1 <=? fuel))%nat
        then Some (Return ((e_candidate randprime (k + 2) j, p * q),
                           (d, p * q)))
        else None).
    { intros fuel. unfold ProposeAuction.generate_keys.
      fold lower upper p.
      destruct (Nat.leb_spec (k + 2) fuel) as [Hk|Hk]; simpl.
      - replace fuel with (k + S (S (fuel - (k + 2))))%nat at 1 by lia.
        rewrite while_q_eq_p_skip by done.
        rewrite while_q_eq_p_exit by done.
        fold q phi. replace (S (1 + k)) with (k + 2 + 0)%nat by lia.
        change 65537 with (e_candidate randprime (k + 2) 0).
        destruct (Nat.leb_spec (j + 1) fuel) as [Hj|Hj].
        + replace fuel with (j + S (fuel - (j + 1)))%nat at 1 by lia.
          rewrite while_phi_mod_e_skip by (intros; split; auto).
          rewrite while_phi_mod_e_exit by auto.
          change (0 + j)%nat with j. change (1 + k)%nat with (S k).
          fold q phi. by rewrite Hpow.
        + rewrite while_phi_mod_e_none; [done|].
          intros s Hs. split; [done|]. apply Hdiv. lia.
      - rewrite while_q_eq_p_none; [done|].
        intros t Ht. apply Hsame. lia. }
    split; [|done].
    apply (generate_keys_sound randprime (k + 2 + (j + 1)) bit_length);
      [done|].
    rewrite Hrun.
    destruct (Nat.leb_spec (k + 2) (k + 2 + (j + 1))); [|lia].
    destruct (Nat.leb_spec (j + 1) (k + 2 + (j + 1))); [done|lia].
  - intros Hsame fuel. unfold ProposeAuction.generate_keys.
    fold lower upper p.
    rewrite while_q_eq_p_none; [done|].
    intros t _. apply Hsame.
Qed.

(** ** Commitments *)

(** C2.  The configured parameters do not give an increasing commitment:
    with generator 2 and the default modulus [2^31 - 1], the bid 31 is
    accepted by [create_commitment] and commits to 1, below the commitment
    [2^30] of the bid 30; the repository's own ordering check on these
    parameters answers [False]. *)
Theorem commitment_decreases_from_30_to_31 :
  ProposeAuction.create_commitment (ProposeAuction.vc_keygen 1 100) None
    (ProposeAuction.User_init "u" 31)
  = (Return 1,
     ProposeAuction.set_commitment 1 (ProposeAuction.User_init "u" 31))
  /\ ProposeAuction.create_commitment (ProposeAuction.vc_keygen 1 100) None
       (ProposeAuction.User_init "u" 30)
     = (Return (2 ^ 30),
        ProposeAuction.set_commitment (2 ^ 30)
          (ProposeAuction.User_init "u" 30))
  /\ 31 <= ProposeAuction.max_safe_bid
  /\ ProposeAuction.verify_commitment_ordering
       (ProposeAuction.vc_keygen 1 100) ProposeAuction.default_modulus
       ProposeAuction.max_safe_bid
     = Return false.
Proof. repeat split; by vm_compute. Qed.

(** C8.  [create_commitment] raises [BidOutOfRange] and leaves the user
    as it was when the bid exceeds 1000; otherwise it computes
    [g ^ bid mod modulus], stores it as the commitment and returns it. *)
Theorem create_commitment_guarded
  (g : Z) (modulus : option Z) (self : ProposeAuction.User) :
  let m := default ProposeAuction.default_modulus modulus in
  let bid := ProposeAuction.bid_value self in
  (1000 < bid ->
   ProposeAuction.create_commitment g modulus self
   = (Raise (BidOutOfRange bid 1000), self))
  /\ (bid <= 1000 -> 0 <= bid -> m <> 0 ->
      ProposeAuction.create_commitment g modulus self
      = (Return (g ^ bid mod m),
         ProposeAuction.set_commitment (g ^ bid mod m) self)
      /\ ProposeAuction.commitment
           (snd (ProposeAuction.create_commitment g modulus self))
         = Some (g ^ bid mod m)).
Proof.
  intros m bid. unfold ProposeAuction.create_commitment.
  fold m bid. unfold ProposeAuction.max_safe_bid. split.
  - intros Hbid. by destruct (Z.ltb_spec 1000 bid); [|lia].
  - intros Hbid H0 Hm. destruct (Z.ltb_spec 1000 bid); [lia|].
    by rewrite pow3_nonneg.
Qed.

(** ** The vector commitment *)

Section VectorCommitment.

Import ProposeAuction.

Lemma set_vector_commitment_twice v v' self :
  set_vector_commitment v (set_vector_commitment v' self)
  = set_vector_commitment v self.
Proof. done. Qed.

(** What the loop does from index [i] on: it multiplies in the winners
    that have a coefficient, and stops with [IndexError] at the first one
    that has none. *)
Lemma compute_vector_commitment_loop_run p ws : forall i acc self,
  p <> 0 ->
  vector_commitment self = Some acc ->
  Forall (fun r => 0 <= r) (take (length ws) (drop i (random_values self))) ->
  compute_vector_commitment_loop p i ws self
  = (if (length (drop i (random_values self)) <? length ws)%nat
     then Raise IndexError else Return tt,
     set_vector_commitment
       (Some (foldl (vc_step p) acc (zip ws (drop i (random_values self)))))
       self).
Proof.
  induction ws as [|[user c] ws IH]; intros i acc self Hp Hacc Hpos.
  - simpl. destruct self; simpl in *. by subst.
  - simpl. unfold index.
    destruct (random_values self !! i) as [r|] eqn:Hr.
    + rewrite (drop_S _ _ _ Hr) in Hpos |- *. simpl in Hpos.
      apply Forall_cons in Hpos as [Hr0 Hpos].
      simpl. unfold pow2. destruct (Z.ltb_spec r 0) as [|_]; [lia|].
      simpl. rewrite Hacc. simpl. unfold mod_.
      destruct (Z.eqb_spec p 0) as [|_]; [done|].
      rewrite (IH (S i) ((acc * c ^ r) mod p)); [|done..].
      by rewrite set_vector_commitment_twice.
    + apply lookup_ge_None in Hr. rewrite drop_ge by done. simpl.
      destruct self; simpl in *. by subst.
Qed.

(** With enough coefficients the loop never faults on an index, whatever
    else goes wrong. *)
Lemma compute_vector_commitment_loop_in_bounds p ws : forall i self,
  (length ws <= length (drop i (random_values self)))%nat ->
  fst (compute_vector_commitment_loop p i ws self) <> Raise IndexError.
Proof.
  induction ws as [|[user c] ws IH]; intros i self Hlen; [done|].
  simpl in *. unfold index.
  destruct (random_values self !! i) as [r|] eqn:Hr.
  - rewrite (drop_S _ _ _ Hr) in Hlen. simpl in Hlen.
    simpl. unfold pow2. destruct (r <? 0); [done|]. simpl.
    destruct (vector_commitment self) as [vc|]; [|done]. simpl.
    unfold mod_. destruct (p =? 0); [done|].
    apply IH. simpl. lia.
  - apply lookup_ge_None in Hr. rewrite drop_ge in Hlen by done.
    simpl in Hlen. lia.
Qed.

Lemma running_product_mod p l : forall acc,
  p <> 0 -> l <> [] ->
  foldl (vc_step p) acc l
  = foldl (fun a wr => a * snd (fst wr) ^ snd wr) acc l mod p.
Proof.
  induction l as [|x l IH] using rev_ind; intros acc Hp Hl; [done|].
  rewrite !foldl_app. simpl. unfold vc_step at 1.
  destruct l as [|y l]; [done|].
  rewrite IH by done. by rewrite Z.mul_mod_idemp_l.
Qed.

End VectorCommitment.

(** C6.  With both sequences populated and at least as many coefficients
    as winners, [compute_vector_commitment] stores and returns the running
    product from 1, which is [c_1 ^ r_1 * ... * c_k ^ r_k mod p], the
    [i]-th winner paired with the [i]-th coefficient. *)
Theorem compute_vector_commitment_product
  (p : Z) (self : ProposeAuction.PBCVerifier) :
  let ws := ProposeAuction.final_winners self in
  let rs := ProposeAuction.random_values self in
  ws <> [] -> rs <> [] -> (length ws <= length rs)%nat ->
  p <> 0 -> Forall (fun r => 0 <= r) (take (length ws) rs) ->
  ProposeAuction.compute_vector_commitment p self
  = (Return (Some (running_product p ws rs)),
     ProposeAuction.set_vector_commitment
       (Some (running_product p ws rs)) self)
  /\ running_product p ws rs = plain_product ws rs mod p.
Proof.
  intros ws rs Hws Hrs Hlen Hp Hpos. split.
  - unfold ProposeAuction.compute_vector_commitment. fold ws rs.
    rewrite !bool_decide_eq_false_2 by done. simpl.
    rewrite (compute_vector_commitment_loop_run p ws 0 1); [|done..].
    simpl. fold rs. change (drop 0 rs) with rs.
    by destruct (Nat.ltb_spec (length rs) (length ws)); [lia|].
  - apply running_product_mod; [done|].
    destruct ws, rs; done.
Qed.

(** C7.  [compute_vector_commitment] raises [MissingInputs] whenever the
    final winners or the blinding coefficients are empty, as they are
    before [select_final_winners] and [generate_random_values] have run,
    and it then leaves the verifier, its stored vector commitment
    included, unchanged. *)
Theorem compute_vector_commitment_missing_inputs
  (p : Z) (self : ProposeAuction.PBCVerifier) :
  ProposeAuction.final_winners self = []
  \/ ProposeAuction.random_values self = [] ->
  ProposeAuction.compute_vector_commitment p self = (Raise MissingInputs, self)
  /\ ProposeAuction.vector_commitment
       (snd (ProposeAuction.compute_vector_commitment p self))
     = ProposeAuction.vector_commitment self.
Proof.
  intros Hempty.
  assert (ProposeAuction.compute_vector_commitment p self
          = (Raise MissingInputs, self)) as ->; [|done].
  unfold ProposeAuction.compute_vector_commitment.
  destruct Hempty as [-> | ->]; simpl; [done|].
  by rewrite orb_true_r.
Qed.

(** C10.  The emptiness guard does not make the coefficient lookup safe.
    Every winner's index is within the coefficients exactly when there are
    at least as many coefficients as winners, and then the operation never
    faults on an index; when both sequences are non-empty and the
    coefficients are fewer, the operation raises [IndexError], not
    [MissingInputs], having stored the product over the winners that had a
    coefficient. *)
Theorem compute_vector_commitment_index_safety
  (p : Z) (self : ProposeAuction.PBCVerifier) :
  let ws := ProposeAuction.final_winners self in
  let rs := ProposeAuction.random_values self in
  ((forall i, (i < length ws)%nat -> index rs i <> Raise IndexError)
   <-> (length ws <= length rs)%nat)
  /\ ((length ws <= length rs)%nat ->
      fst (ProposeAuction.compute_vector_commitment p self)
      <> Raise IndexError)
  /\ (ws <> [] -> rs <> [] -> (length rs < length ws)%nat ->
      p <> 0 -> Forall (fun r => 0 <= r) rs ->
      ProposeAuction.compute_vector_commitment p self
      = (Raise IndexError,
         ProposeAuction.set_vector_commitment
           (Some (running_product p ws rs)) self)).
Proof.
  intros ws rs. split; [|split].
  - split.
    + intros Hsafe.
      destruct (Nat.le_gt_cases (length ws) (length rs)) as [|Hlt]; [done|].
      exfalso. apply (Hsafe (length rs) Hlt). unfold index.
      by rewrite lookup_ge_None_2.
    + intros Hlen i Hi. unfold index.
      destruct (lookup_lt_is_Some_2 rs i ltac:(lia)) as [r ->]. done.
  - intros Hlen. unfold ProposeAuction.compute_vector_commitment.
    fold ws rs.
    destruct (bool_decide (ws = []) || bool_decide (rs = [])); [done|].
    pose proof (compute_vector_commitment_loop_in_bounds p ws 0
      (ProposeAuction.set_vector_commitment (Some 1) self) Hlen) as Hloop.
    fold ws in Hloop.
    destruct (ProposeAuction.compute_vector_commitment_loop _ _ _ _)
      as [[[]|e] self']; [done|]. simpl in *.
    intros [= ->]. by apply Hloop.
  - intros Hws Hrs Hlen Hp Hpos.
    unfold ProposeAuction.compute_vector_commitment. fold ws rs.
    rewrite !bool_decide_eq_false_2 by done. simpl.
    rewrite (compute_vector_commitment_loop_run p ws 0 1);
      [|done|done|by apply Forall_take].
    simpl. fold rs. change (drop 0 rs) with rs.
    by destruct (Nat.ltb_spec (length rs) (length ws)); [|lia].
Qed.

(** ** Sorting and slicing *)

Section Sorting.

Context {A : Type} (key : A -> Z).

Lemma insert_desc_perm (x : A) (l : list A) : insert_desc key x l ≡ₚ x :: l.
Proof.
  induction l as [|y l IH]; simpl; [done|].
  destruct (key y <=? key x); [done|].
  by rewrite IH, Permutation_swap.
Qed.

Lemma sorted_desc_perm (l : list A) : sorted_desc key l ≡ₚ l.
Proof.
  induction l as [|x l IH]; simpl; [done|].
  by rewrite insert_desc_perm, IH.
Qed.

Lemma insert_desc_sorted (x : A) (l : list A) :
  StronglySorted (fun x y => key y <= key x) l -> StronglySorted (fun x y => key y <= key x) (insert_desc key x l).
Proof.
  induction 1 as [|y l Hl IH Hy]; simpl.
  - by repeat constructor.
  - destruct (Z.leb_spec (key y) (key x)) as [Hle|Hgt].
    + constructor; [by constructor|].
      constructor; [done|].
      eapply Forall_impl; [exact Hy|]. simpl. intros z Hz. lia.
    + constructor; [done|].
      rewrite insert_desc_perm. constructor; [lia|done].
Qed.

Lemma sorted_desc_sorted (l : list A) : StronglySorted (fun x y => key y <= key x) (sorted_desc key l).
Proof.
  induction l as [|x l IH]; simpl; [constructor|].
  by apply insert_desc_sorted.
Qed.

(** Stability: the items of one key keep the order they had. *)
Lemma insert_desc_stable (k : Z) (x : A) (l : list A) :
  filter (fun y => key y = k) (insert_desc key x l)
  = filter (fun y => key y = k) (x :: l).
Proof.
  induction l as [|y l IH]; simpl; [done|].
  destruct (Z.leb_spec (key y) (key x)) as [Hle|Hgt]; [done|].
  rewrite (filter_cons _ y), IH, !(filter_cons _ x), (filter_cons _ y).
  repeat case_decide; done || lia.
Qed.

Lemma sorted_desc_stable (k : Z) (l : list A) :
  filter (fun y => key y = k) (sorted_desc key l)
  = filter (fun y => key y = k) l.
Proof.
  induction l as [|x l IH]; simpl; [done|].
  by rewrite insert_desc_stable, !filter_cons, IH.
Qed.

Lemma sorted_desc_length (l : list A) : length (sorted_desc key l) = length l.
Proof. by rewrite sorted_desc_perm. Qed.

Lemma slice_to_nonneg (M : Z) (l : list A) :
  0 <= M -> slice_to M l = take (Z.to_nat M `min` length l) l.
Proof.
  intros HM. unfold slice_to. destruct (Z.ltb_spec M 0) as [|_]; [lia|].
  destruct (Nat.le_ge_cases (Z.to_nat M) (length l)) as [Hle|Hge].
  - by rewrite Nat.min_l.
  - rewrite Nat.min_r by done. by rewrite !take_ge by lia.
Qed.

Lemma slice_to_length_le (M : Z) (l : list A) :
  0 <= M -> Z.of_nat (length (slice_to M l)) <= Z.min M (Z.of_nat (length l)).
Proof.
  intros HM. rewrite slice_to_nonneg, length_take by done. lia.
Qed.

End Sorting.

(** ** The child verifier *)

Section ChildVerifier.

Import ProposeAuction.

Lemma decrypt_commitments_loop_frame h us : forall self,
  let self' := snd (decrypt_commitments_loop h us self) in
  users self' = users self
  /\ (length (decrypted_commitments self')
      <= length (decrypted_commitments self) + length us)%nat.
Proof.
  induction us as [|user us IH]; intros self; simpl; [split; [done|lia]|].
  destruct (h !! user ≫= encrypted_commitment) as [c|].
  - destruct (decrypt c (cbc_privkey self)) as [d|x]; simpl;
      [|split; [done|lia]].
    destruct (IH (set_decrypted_commitments
                    (decrypted_commitments self ++ [(user, d)]) self))
      as [-> Hlen].
    simpl in *. rewrite length_app in Hlen. simpl in Hlen. split; [done|lia].
  - destruct (IH self) as [-> Hlen]. split; [done|lia].
Qed.

(** A verifier never holds more decrypted commitments than registered
    users. *)
Lemma cbc_reachable_bound self :
  cbc_reachable self ->
  (length (decrypted_commitments self) <= length (users self))%nat.
Proof.
  induction 1 as [| user self _ IH | h self _ IH | M self _ IH
                 | pk self _ IH]; simpl; try done.
  - rewrite length_app. simpl. lia.
  - unfold decrypt_commitments.
    pose proof (decrypt_commitments_loop_frame h
                  (users (set_decrypted_commitments [] self))
                  (set_decrypted_commitments [] self)) as [Hu Hlen].
    destruct (decrypt_commitments_loop _ _ _) as [[[]|x] self']; simpl in *;
      rewrite Hu; lia.
Qed.

Lemma encrypt_winners_loop_map (pbc_pubkey : key) (enc : Z -> Z) ws :
  (forall c, encrypt c pbc_pubkey = Return (enc c)) ->
  forall acc,
    encrypt_winners_loop pbc_pubkey ws acc
    = Return (acc ++ map (fun w => (fst w, enc (snd w))) ws).
Proof.
  intros Henc. induction ws as [|[user c] ws IH]; intros acc; simpl.
  - by rewrite app_nil_r.
  - rewrite Henc, IH. by rewrite <- app_assoc.
Qed.

End ChildVerifier.

(** C4.  For a non-negative [M], [select_top_M] returns and stores the
    decrypted commitments in stable descending order of value, cut to the
    first [min(M, count)] entries: the order is a rearrangement of the
    decrypted commitments, descending, in which entries of equal value keep
    their arrival order.  The result has at most [min(M, registered users)]
    entries, and [select_final_winners] returns at most [M]. *)
Theorem select_top_M_stable_truncated
  (M : Z) (self : ProposeAuction.CBCVerifier) (pbc : ProposeAuction.PBCVerifier) :
  cbc_reachable self -> 0 <= M ->
  let dc := ProposeAuction.decrypted_commitments self in
  let sorted := sorted_desc snd dc in
  let top := fst (ProposeAuction.select_top_M M self) in
  sorted ≡ₚ dc
  /\ StronglySorted (fun x y => snd y <= snd x) sorted
  /\ (forall v, filter (fun x => snd x = v) sorted
                = filter (fun x => snd x = v) dc)
  /\ top = take (Z.to_nat M `min` length dc) sorted
  /\ ProposeAuction.top_M_winners (snd (ProposeAuction.select_top_M M self))
     = top
  /\ Z.of_nat (length top)
     <= Z.min M (Z.of_nat (length (ProposeAuction.users self)))
  /\ Z.of_nat (length (fst (ProposeAuction.select_final_winners M pbc))) <= M.
Proof.
  intros Hreach HM dc sorted top.
  assert (Htop : top = take (Z.to_nat M `min` length dc) sorted).
  { unfold top, sorted. simpl. fold dc.
    by rewrite slice_to_nonneg, sorted_desc_length. }
  split; [apply sorted_desc_perm|].
  split; [apply (sorted_desc_sorted snd)|].
  split; [intros v; apply (sorted_desc_stable snd)|].
  split; [done|]. split; [done|]. split.
  - pose proof (cbc_reachable_bound _ Hreach) as Hbound. fold dc in Hbound.
    rewrite Htop, length_take. unfold sorted.
    rewrite sorted_desc_length. lia.
  - simpl.
    pose proof (slice_to_length_le M
      (sorted_desc snd (ProposeAuction.all_decrypted_commitments pbc)) HM).
    lia.
Qed.

(** C9.  [encrypt_winners_for_pbc] leaves the verifier unchanged, and
    under a usable public key [(e, n)] it returns, in the order of the top
    winners, each user with the encryption [value ^ e mod n] of its
    value. *)
Theorem encrypt_winners_for_pbc_frame
  (pbc_pubkey : ProposeAuction.key) (self : ProposeAuction.CBCVerifier) :
  snd (ProposeAuction.encrypt_winners_for_pbc pbc_pubkey self) = self
  /\ (snd pbc_pubkey <> 0 -> 0 <= fst pbc_pubkey ->
      (forall c,
         ProposeAuction.encrypt c pbc_pubkey
         = Return (c ^ fst pbc_pubkey mod snd pbc_pubkey))
      /\ fst (ProposeAuction.encrypt_winners_for_pbc pbc_pubkey self)
         = Return
             (map (fun w =>
                     (fst w, snd w ^ fst pbc_pubkey mod snd pbc_pubkey))
                (ProposeAuction.top_M_winners self))).
Proof.
  split; [done|]. intros Hn He.
  assert (Henc : forall c,
    ProposeAuction.encrypt c pbc_pubkey
    = Return (c ^ fst pbc_pubkey mod snd pbc_pubkey)).
  { intros c. destruct pbc_pubkey as [e n]. simpl in *.
    by apply pow3_nonneg. }
  split; [done|]. simpl.
  by rewrite (encrypt_winners_loop_map _ _ _ Henc).
Qed.

(** ** Sorting by two keys that order alike *)

Section SortingTwoKeys.

Context {A B : Type}.

Lemma insert_desc_map (key : B -> Z) (f : A -> B) (x : A) (l : list A) :
  insert_desc key (f x) (map f l)
  = map f (insert_desc (fun a => key (f a)) x l).
Proof.
  induction l as [|y l IH]; simpl; [done|].
  destruct (key (f y) <=? key (f x)); simpl; [done|]. by rewrite IH.
Qed.

Lemma sorted_desc_map (key : B -> Z) (f : A -> B) (l : list A) :
  sorted_desc key (map f l) = map f (sorted_desc (fun a => key (f a)) l).
Proof.
  induction l as [|x l IH]; simpl; [done|].
  by rewrite IH, insert_desc_map.
Qed.

Lemma insert_desc_ext (key1 key2 : A -> Z) (x : A) (l : list A) :
  (forall y, y ∈ l -> (key1 y <=? key1 x) = (key2 y <=? key2 x)) ->
  insert_desc key1 x l = insert_desc key2 x l.
Proof.
  induction l as [|y l IH]; intros Hext; simpl; [done|].
  rewrite (Hext y) by left.
  destruct (key2 y <=? key2 x); [done|].
  rewrite IH; [done|]. intros z Hz. apply Hext. by right.
Qed.

Lemma sorted_desc_ext (key1 key2 : A -> Z) (l : list A) :
  (forall x y, x ∈ l -> y ∈ l ->
     (key1 y <=? key1 x) = (key2 y <=? key2 x)) ->
  sorted_desc key1 l = sorted_desc key2 l.
Proof.
  induction l as [|x l IH]; intros Hext; simpl; [done|].
  rewrite IH by (intros; apply Hext; by right).
  apply insert_desc_ext. intros y Hy. apply Hext; [left|right].
  by rewrite sorted_desc_perm in Hy.
Qed.

Lemma slice_to_map (f : A -> B) (M : Z) (l : list A) :
  slice_to M (map f l) = map f (slice_to M l).
Proof.
  unfold slice_to. rewrite length_map.
  destruct (M <? 0); by rewrite firstn_map.
Qed.

Lemma slice_to_subseteq (M : Z) (l : list A) (x : A) :
  x ∈ slice_to M l -> x ∈ l.
Proof.
  unfold slice_to. destruct (M <? 0); apply (subseteq_take _ l).
Qed.

Lemma map_imap_const {C : Type} (G : B -> C) (G' : A -> C) (l : list A) :
  forall f : nat -> A -> B,
    (forall i x, G (f i x) = G' x) -> map G (imap f l) = map G' l.
Proof.
  induction l as [|x l IH]; intros f Hf; simpl; [done|].
  rewrite Hf. f_equal. apply IH. intros i y. apply Hf.
Qed.

End SortingTwoKeys.

(** ** The baseline, bidder by bidder *)

Section Baseline.

Import OrdinalAuction.

Lemma collect_winners_loop_run todo : forall done acc,
  snd (collect_winners_loop todo done acc)
  = acc ++ concat (map (fun ch => slice_to (child_M ch)
                                    (sorted_desc bid_value (bidders ch)))
                     todo).
Proof.
  induction todo as [|ch todo IH]; intros done acc; simpl.
  - by rewrite app_nil_r.
  - rewrite IH. by rewrite <- app_assoc.
Qed.

Lemma map_snd_zip_seq {A} (g : list A) : forall k,
  map snd (zip (seq k (length g)) g) = g.
Proof.
  induction g as [|x g IH]; intros k; simpl; [done|]. by rewrite IH.
Qed.

Lemma group_top_bidders (M : Z) (k : nat) (g : list (string * Z)) :
  slice_to M (sorted_desc bid_value (map (fun b => mkBidder (fst b) (snd b)) g))
  = map bidder_of
      (slice_to M (sorted_desc bid_of (zip (seq k (length g)) g))).
Proof.
  rewrite <- (map_snd_zip_seq g k) at 1.
  rewrite map_map.
  change (fun x : nat * (string * Z) => mkBidder (fst (snd x)) (snd (snd x)))
    with bidder_of.
  by rewrite sorted_desc_map, slice_to_map.
Qed.

Lemma all_top_bidders (M : Z) (groups : list (list (string * Z))) :
  forall k,
    concat (map (fun g => slice_to M
                   (sorted_desc bid_value
                      (map (fun b => mkBidder (fst b) (snd b)) g))) groups)
    = map bidder_of (tops M (entries k groups)).
Proof.
  unfold tops.
  induction groups as [|g groups IH]; intros k; simpl; [done|].
  by rewrite map_app, (group_top_bidders M k), (IH (k + length g)%nat).
Qed.

Lemma run_simple_auction_tops (groups : list (list (string * Z))) (M : Z)
  (k : nat) :
  run_simple_auction groups M
  = map bidder_of (slice_to M (sorted_desc bid_of (tops M (entries k groups)))).
Proof.
  unfold run_simple_auction, determine_global_winners, collect_winners.
  unfold ParentBlockchain_init. simpl.
  pose proof (collect_winners_loop_run
    (imap (fun i bids =>
             ChildBlockchain_init
               (String.append "CBC"
                  (String (Ascii.ascii_of_nat (65 + i)) EmptyString))
               (map (fun b => mkBidder (fst b) (snd b)) bids) M) groups)
    [] []) as Hrun.
  destruct (collect_winners_loop _ _ _) as [children winners].
  simpl in *. subst winners.
  rewrite (map_imap_const _
    (fun g => slice_to M
       (sorted_desc bid_value (map (fun b => mkBidder (fst b) (snd b)) g))))
    by done.
  rewrite (all_top_bidders M groups k).
  by rewrite sorted_desc_map, slice_to_map.
Qed.

End Baseline.

(** ** The protocol, child by child *)

Section ProtocolRounds.

Import ProposeAuction.

Lemma rsa_keys_usable (keys : key * key) :
  rsa_keys keys ->
  let e := fst (fst keys) in
  let n := snd (fst keys) in
  n <> 0 /\ 0 <= e
  /\ (forall m, encrypt m (fst keys) = Return (m ^ e mod n))
  /\ (forall m, 0 <= m < n -> decrypt (m ^ e mod n) (snd keys) = Return m).
Proof.
  intros Hkeys e n.
  pose proof Hkeys as (p & q & Hp & Hq & Hne & Hn & Hn' & He & Hd & Hed).
  pose proof (Z.prime_ge_2 _ Hp). pose proof (Z.prime_ge_2 _ Hq).
  assert (Hn0 : n <> 0) by (unfold n; nia).
  assert (Henc : forall m, encrypt m (fst keys) = Return (m ^ e mod n)).
  { intros m. unfold e, n. destruct keys as [[e' n'] priv]. simpl in *.
    by apply pow3_nonneg. }
  repeat (split; [done|]).
  intros m Hm. pose proof (rsa_keys_decrypt_encrypt keys m Hkeys Hm) as Hrt.
  by rewrite Henc in Hrt.
Qed.

Lemma generated_rsa_keys (keys : key * key) : generated keys -> rsa_keys keys.
Proof.
  intros (randprime & fuel & bit_length & Hok & Hgen).
  by eapply generate_keys_sound.
Qed.

Lemma create_commitment_run (g : Z) (modulus : option Z) (self : User) :
  bid_value self <= 1000 -> 0 <= bid_value self ->
  default default_modulus modulus <> 0 ->
  create_commitment g modulus self
  = (Return (g ^ bid_value self mod default default_modulus modulus),
     set_commitment (g ^ bid_value self mod default default_modulus modulus)
       self).
Proof.
  intros Hbid H0 Hm. unfold create_commitment, max_safe_bid.
  destruct (Z.ltb_spec 1000 (bid_value self)); [lia|].
  by rewrite pow3_nonneg.
Qed.

Lemma bidding_phase_run (pubkey : key) (todo : list (string * Z)) :
  snd pubkey <> 0 -> 0 <= fst pubkey ->
  Forall (fun b => 0 <= snd b <= 1000) todo ->
  forall h0,
    bidding_phase (vc_keygen 1 100) pubkey
      (seq (length h0) (length todo))
      (h0 ++ map (fun b => User_init (fst b) (snd b)) todo)
    = Return (h0 ++ map (committed_user pubkey) todo).
Proof.
  intros Hn He. induction 1 as [|b todo Hb _ IH]; intros h0; simpl; [done|].
  rewrite list_lookup_middle by done.
  rewrite create_commitment_run by (simpl; done || lia).
  unfold encrypt_commitment. simpl.
  destruct pubkey as [e n]. simpl in *.
  rewrite pow3_nonneg by done.
  rewrite insert_app_r_alt, Nat.sub_diag by done. simpl.
  specialize (IH (h0 ++ [committed_user (e, n) b])).
  rewrite length_app, Nat.add_1_r, <- app_assoc in IH. simpl in IH.
  by rewrite <- app_assoc in IH.
Qed.

Lemma foldl_register_user (us : list loc) : forall cbc,
  foldl (fun c user => register_user user c) cbc us
  = set_users (users cbc ++ us) cbc.
Proof.
  induction us as [|u us IH]; intros cbc; simpl.
  - rewrite app_nil_r. by destruct cbc.
  - rewrite IH. unfold register_user. simpl. by rewrite <- app_assoc.
Qed.

(** Where the users of a group sit in the store. *)
Lemma store_lookup_group {A} (f : A -> User) (g : list A) :
  forall (h0 rest : store),
    Forall2 (fun l b => (h0 ++ map f g ++ rest) !! l = Some (f b))
      (seq (length h0) (length g)) g.
Proof.
  induction g as [|b g IH]; intros h0 rest; simpl; [constructor|].
  constructor.
  - by rewrite list_lookup_middle.
  - specialize (IH (h0 ++ [f b]) rest).
    rewrite length_app, Nat.add_1_r, <- app_assoc in IH. exact IH.
Qed.

Lemma decrypt_commitments_loop_run (h : store) (keys : key * key)
  (us : list loc) (bids : list (string * Z)) :
  rsa_keys keys ->
  Forall2 (fun l b => h !! l = Some (committed_user (fst keys) b)) us bids ->
  Forall (fun b => 0 <= commit_value (snd b) < snd (fst keys)) bids ->
  forall self,
    cbc_privkey self = snd keys ->
    decrypt_commitments_loop h us self
    = (Return tt,
       set_decrypted_commitments
         (decrypted_commitments self ++ map commitment_of (zip us bids))
         self).
Proof.
  intros Hkeys. pose proof (rsa_keys_usable keys Hkeys) as (_ & _ & _ & Hdec).
  induction 1 as [|l b us bids Hl _ IH]; intros Hfit self Hpriv; simpl.
  - rewrite app_nil_r. by destruct self.
  - apply Forall_cons in Hfit as [Hb Hfit].
    rewrite Hl. simpl. rewrite Hpriv, Hdec by done.
    rewrite IH by done. simpl. by rewrite <- app_assoc.
Qed.

Lemma commit_value_bounds (b : Z) : 0 <= commit_value b < default_modulus.
Proof. apply Z.mod_pos_bound. by vm_compute. Qed.

Lemma sorted_desc_by_commitment (bs : list Z)
  (es : list (loc * (string * Z))) :
  increasing_on bs ->
  (forall e, e ∈ es -> bid_of e ∈ bs) ->
  sorted_desc snd (map commitment_of es)
  = map commitment_of (sorted_desc bid_of es).
Proof.
  intros Hinc Hin. rewrite sorted_desc_map. f_equal.
  apply sorted_desc_ext. intros x y Hx Hy. simpl.
  destruct (Z.leb_spec (bid_of y) (bid_of x)) as [Hle|Hlt].
  - apply Z.leb_le.
    destruct (Z.eq_dec (bid_of y) (bid_of x)) as [->|Hne]; [done|].
    apply Z.lt_le_incl, Hinc; auto. lia.
  - apply Z.leb_gt, Hinc; auto.
Qed.

Lemma cbc_round_run (bs : list Z) (M : Z) (cbc : CBCVerifier)
  (bids : list (string * Z)) (h : store) (pbc : PBCVerifier) :
  increasing_on bs -> child_ready bs (cbc, bids) ->
  snd (pbc_pubkey pbc) <> 0 -> 0 <= fst (pbc_pubkey pbc) ->
  exists cbc',
    cbc_round (vc_keygen 1 100) M bids cbc h pbc
    = Return
        (cbc', h ++ committed_group (cbc, bids),
         collect_encrypted_winners
           (map (fun w => (fst w,
                           snd w ^ fst (pbc_pubkey pbc) mod snd (pbc_pubkey pbc)))
              (map commitment_of
                 (slice_to M (sorted_desc bid_of
                                (zip (seq (length h) (length bids)) bids)))))
           pbc).
Proof.
  intros Hinc (cbc_id & keys & Hcbc & Hkeys & Hbids) Hn He.
  simpl in Hcbc, Hbids. subst cbc.
  pose proof (rsa_keys_usable keys Hkeys) as (Hkn & Hke & _ & _).
  unfold cbc_round, committed_group.
  rewrite foldl_register_user. simpl.
  rewrite bidding_phase_run;
    [|done|done|eapply Forall_impl; [exact Hbids|]; simpl; tauto].
  simpl. unfold decrypt_commitments. simpl.
  rewrite (decrypt_commitments_loop_run _ keys _ bids); [|done| | |done].
  - simpl. rewrite sorted_desc_by_commitment with (bs := bs); [|done|].
    + rewrite slice_to_map.
      rewrite (encrypt_winners_loop_map _
        (fun c => c ^ fst (pbc_pubkey pbc) mod snd (pbc_pubkey pbc))).
      * simpl. eauto.
      * intros c. destruct (pbc_pubkey pbc) as [e n]. simpl in *.
        by apply pow3_nonneg.
    + intros [l b] Hin%elem_of_zip_r.
      rewrite Forall_forall in Hbids. by apply Hbids.
  - pose proof (store_lookup_group (committed_user (fst keys)) bids h [])
      as Hstore.
    by rewrite !app_nil_r in Hstore.
  - eapply Forall_impl; [exact Hbids|]. simpl. intros b (_ & Hb & _).
    pose proof (commit_value_bounds (snd b)). lia.
Qed.

Lemma cbc_rounds_run (bs : list Z) (M : Z)
  (cs : list (CBCVerifier * list (string * Z))) :
  increasing_on bs -> Forall (child_ready bs) cs ->
  forall (h : store) (pbc : PBCVerifier),
    snd (pbc_pubkey pbc) <> 0 -> 0 <= fst (pbc_pubkey pbc) ->
    cbc_rounds (vc_keygen 1 100) M cs h pbc
    = Return
        (h ++ concat (map committed_group cs),
         set_all_encrypted_winners
           (all_encrypted_winners pbc
            ++ map (fun w => (fst w,
                              snd w ^ fst (pbc_pubkey pbc)
                              mod snd (pbc_pubkey pbc)))
                 (map commitment_of
                    (tops M (entries (length h) (map snd cs)))))
           pbc).
Proof.
  intros Hinc. induction 1 as [|[cbc bids] cs Hc _ IH]; intros h pbc Hn He.
  - simpl. rewrite !app_nil_r. by destruct pbc.
  - simpl.
    destruct (cbc_round_run bs M cbc bids h pbc Hinc Hc Hn He) as [cbc' ->].
    simpl. rewrite IH by done. simpl.
    assert (length (committed_group (cbc, bids)) = length bids) as Hlen
      by (unfold committed_group; simpl; by rewrite length_map).
    rewrite length_app, Hlen. unfold tops. simpl.
    by rewrite !map_app, <- !app_assoc.
Qed.

Lemma decrypt_all_commitments_loop_run (keys : key * key)
  (es : list (loc * (string * Z))) :
  rsa_keys keys ->
  Forall (fun e => commit_value (bid_of e) < snd (fst keys)) es ->
  forall self,
    pbc_privkey self = snd keys ->
    decrypt_all_commitments_loop
      (map (fun w => (fst w, snd w ^ fst (fst keys) mod snd (fst keys)))
         (map commitment_of es)) self
    = (Return tt,
       set_all_decrypted_commitments
         (all_decrypted_commitments self ++ map commitment_of es) self).
Proof.
  intros Hkeys. pose proof (rsa_keys_usable keys Hkeys) as (_ & _ & _ & Hdec).
  induction 1 as [|e es He _ IH]; intros self Hpriv; simpl.
  - rewrite app_nil_r. by destruct self.
  - pose proof (commit_value_bounds (bid_of e)).
    rewrite Hpriv, Hdec by lia.
    rewrite IH by done. simpl. by rewrite <- app_assoc.
Qed.

Lemma Forall2_elem_of_zip {A B} (R : A -> B -> Prop) l1 l2 (x : A * B) :
  Forall2 R l1 l2 -> x ∈ zip l1 l2 -> R (fst x) (snd x).
Proof.
  induction 1 as [|a b l1 l2 Hab _ IH]; simpl.
  - by intros ?%elem_of_nil.
  - intros [->|Hin]%elem_of_cons; [done|]. by apply IH.
Qed.

(** Every bidder's user sits where [entries] says, under the bidder's
    name. *)
Lemma entries_lookup (cs : list (CBCVerifier * list (string * Z))) :
  forall (h rest : store) (e : loc * (string * Z)),
    e ∈ concat (entries (length h) (map snd cs)) ->
    user_id <$> (h ++ concat (map committed_group cs) ++ rest) !! fst e
    = Some (fst (snd e)).
Proof.
  induction cs as [|[cbc bids] cs IH]; intros h rest e; simpl.
  - by intros ?%elem_of_nil.
  - intros [Hin|Hin]%elem_of_app.
    + pose proof (store_lookup_group (committed_user (cbc_pubkey cbc)) bids h
                    (concat (map committed_group cs) ++ rest)) as Hstore.
      apply (Forall2_elem_of_zip _ _ _ e) in Hstore; [|done].
      unfold committed_group at 1. simpl. rewrite <- app_assoc.
      by rewrite Hstore.
    + specialize (IH (h ++ committed_group (cbc, bids)) rest e).
      unfold committed_group at 1 2 in IH. simpl in IH.
      rewrite length_app, length_map in IH.
      rewrite <- !app_assoc in IH |- *. by apply IH.
Qed.

Lemma entries_bids (groups : list (list (string * Z))) :
  forall (k : nat) (e : loc * (string * Z)),
    e ∈ concat (entries k groups) -> snd e ∈ concat groups.
Proof.
  induction groups as [|g groups IH]; intros k [l b]; simpl.
  - by intros ?%elem_of_nil.
  - intros [Hin|Hin]%elem_of_app; apply elem_of_app.
    + left. by apply elem_of_zip_r in Hin.
    + right. by apply (IH _ _ Hin).
Qed.

Lemma tops_subseteq (M : Z) (es : list (list (loc * (string * Z))))
  (e : loc * (string * Z)) :
  e ∈ tops M es -> e ∈ concat es.
Proof.
  unfold tops. induction es as [|g es IH]; simpl; [done|].
  intros [Hin|Hin]%elem_of_app; apply elem_of_app; [left|right; by apply IH].
  apply slice_to_subseteq in Hin. by rewrite sorted_desc_perm in Hin.
Qed.

Lemma winner_ids_commitments (h : store) (W : list (loc * (string * Z))) :
  (forall e, e ∈ W -> user_id <$> h !! fst e = Some (fst (snd e))) ->
  winner_ids h (map commitment_of W) = map (fun e => fst (snd e)) W.
Proof.
  unfold winner_ids. induction W as [|e W IH]; intros Hh; simpl; [done|].
  rewrite Hh by left. simpl. f_equal. apply IH. intros. apply Hh. by right.
Qed.

Lemma Forall_imap {A B} (P : B -> Prop) (Q : A -> Prop) (l : list A) :
  forall f : nat -> A -> B,
    Forall Q l -> (forall i x, Q x -> P (f i x)) -> Forall P (imap f l).
Proof.
  induction l as [|x l IH]; intros f Hl Hf; simpl; [constructor|].
  apply Forall_cons in Hl as [Hx Hl].
  constructor; [by apply Hf|]. apply IH; [done|]. intros i y. apply Hf.
Qed.

End ProtocolRounds.

(** ** Agreement of the two auctions *)

Section Agreement.

Import ProposeAuction.

Lemma fresh_children_ready (pbc_keys : key * key)
  (cbcs : list ((key * key) * list (string * Z))) :
  Forall (fun c => generated (fst c)) cbcs ->
  Forall (fun c =>
            Forall (fun b => 0 <= snd b <= 1000
                             /\ commit_value (snd b) < snd (fst (fst c))
                             /\ commit_value (snd b) < snd (fst pbc_keys))
              (snd c)) cbcs ->
  Forall (child_ready (map snd (concat (map snd cbcs))))
    (imap (fun i c =>
             (CBCVerifier_init
                (String.append "CBC_"
                   (String (Ascii.ascii_of_nat (65 + i)) EmptyString))
                (fst c), snd c)) cbcs).
Proof.
  intros Hgen Hbids.
  apply (Forall_imap _ (fun c =>
    generated (fst c)
    /\ Forall (fun b => 0 <= snd b <= 1000
                        /\ commit_value (snd b) < snd (fst (fst c))
                        /\ snd b ∈ map snd (concat (map snd cbcs))) (snd c))).
  - rewrite Forall_forall in Hgen, Hbids |- *. intros c Hc.
    split; [by apply Hgen|].
    specialize (Hbids c Hc). rewrite Forall_forall in Hbids |- *.
    intros b Hb. destruct (Hbids b Hb) as (H1 & H2 & _).
    repeat (split; [done|]).
    apply list_elem_of_In, in_map, in_concat. exists (snd c).
    split; [apply in_map|]; by apply list_elem_of_In.
  - intros i c [Hg Hb]. eexists _, (fst c). simpl.
    split; [done|]. split; [by apply generated_rsa_keys|done].
Qed.

End Agreement.

(** X22.  When every key pair comes from [generate_keys], every bid lies
    in 0..1000, the commitment is strictly increasing over the bids that
    occur, and every commitment is below the modulus of its child verifier
    and of the parent verifier, the protocol runs without error up to
    [select_final_winners], and its final winners are, in the same order,
    the bidders the baseline selects. *)
Theorem auctions_agree_when_commitments_fit
  (pbc_keys : ProposeAuction.key * ProposeAuction.key)
  (cbcs : list ((ProposeAuction.key * ProposeAuction.key)
                * list (string * Z)))
  (M : Z) :
  generated pbc_keys ->
  Forall (fun c => generated (fst c)) cbcs ->
  Forall (fun c =>
            Forall (fun b => 0 <= snd b <= 1000
                             /\ commit_value (snd b) < snd (fst (fst c))
                             /\ commit_value (snd b) < snd (fst pbc_keys))
              (snd c)) cbcs ->
  increasing_on (map snd (concat (map snd cbcs))) ->
  exists h pbc ws,
    ProposeAuction.auction_winners pbc_keys cbcs M = Return (h, pbc, ws)
    /\ ProposeAuction.winner_ids h ws
       = map OrdinalAuction.id
           (OrdinalAuction.run_simple_auction (map snd cbcs) M).
Proof.
  intros Hpbc Hgen Hbids Hinc.
  set (bs := map snd (concat (map snd cbcs))) in *.
  pose proof (fresh_children_ready pbc_keys cbcs Hgen Hbids) as Hready.
  fold bs in Hready.
  set (cs := imap _ cbcs) in Hready.
  assert (Hgroups : map snd cs = map snd cbcs)
    by (by apply map_imap_const).
  pose proof (generated_rsa_keys _ Hpbc) as Hrsa.
  pose proof (rsa_keys_usable _ Hrsa) as (Hn & He & _ & _).
  set (T := tops M (entries 0 (map snd cbcs))).
  assert (HT : forall e, e ∈ T -> snd e ∈ concat (map snd cbcs)).
  { intros e He'. eapply entries_bids, tops_subseteq, He'. }
  assert (HTbs : forall e, e ∈ T -> bid_of e ∈ bs).
  { intros e He'. unfold bid_of, bs.
    apply list_elem_of_In, in_map, list_elem_of_In. by apply HT. }
  assert (HTfit : Forall (fun e => commit_value (bid_of e)
                                   < snd (fst pbc_keys)) T).
  { apply Forall_forall.
    intros e [g [Hg Hb]]%HT%list_elem_of_In%in_concat.
    apply in_map_iff in Hg as (c & <- & Hc).
    rewrite Forall_forall in Hbids.
    specialize (Hbids c ltac:(by apply list_elem_of_In)).
    rewrite Forall_forall in Hbids.
    by apply (Hbids (snd e) ltac:(by apply list_elem_of_In)). }
  set (W := slice_to M (sorted_desc bid_of T)).
  exists ([] ++ concat (map committed_group cs)).
  eexists. exists (map commitment_of W). split.
  - unfold ProposeAuction.auction_winners. fold cs.
    rewrite (cbc_rounds_run bs) by done. simpl.
    rewrite Hgroups. fold T.
    unfold ProposeAuction.decrypt_all_commitments. simpl.
    rewrite (decrypt_all_commitments_loop_run pbc_keys T) by done.
    simpl.
    rewrite (sorted_desc_by_commitment bs), slice_to_map by done.
    reflexivity.
  - rewrite winner_ids_commitments.
    + rewrite (run_simple_auction_tops _ _ 0). fold T W.
      by rewrite map_map.
    + intros e He'.
      pose proof (entries_lookup cs [] [] e) as Hlook.
      rewrite app_nil_r in Hlook. apply Hlook. simpl. rewrite Hgroups.
      apply (tops_subseteq M). fold T.
      unfold W in He'. apply slice_to_subseteq in He'.
      by rewrite sorted_desc_perm in He'.
Qed.

(** ** The properties at concrete inputs *)

Section ConcreteInputs.

Import ProposeAuction Examples.

Lemma two_primes_ok (p q : Z) :
  prime_b p = true -> prime_b q = true ->
  128 <= p < 255 -> 128 <= q < 255 ->
  randprime_ok_for (two_primes p q) 16.
Proof.
  intros Hp Hq Hpr Hqr. split; intros i.
  - change (2 ^ (16 / 2 - 1)) with 128. change (2 ^ (16 / 2) - 1) with 255.
    unfold two_primes. simpl.
    destruct i; (split; [by apply prime_b_sound|done]).
  - unfold two_primes. simpl. split; [apply Z.prime_3|lia].
Qed.

Lemma keys_a_generated : generated keys_a.
Proof.
  exists (two_primes 131 137), 2%nat, 16.
  split; [by apply two_primes_ok|by vm_compute].
Qed.

Lemma keys_b_generated : generated keys_b.
Proof.
  exists (two_primes 139 149), 2%nat, 16.
  split; [by apply two_primes_ok|by vm_compute].
Qed.

Lemma keys_pbc_generated : generated keys_pbc.
Proof.
  exists (two_primes 151 157), 2%nat, 16.
  split; [by apply two_primes_ok|by vm_compute].
Qed.

Lemma increasing_on_b_sound (bs : list Z) :
  increasing_on_b bs = true -> increasing_on bs.
Proof.
  unfold increasing_on_b. rewrite forallb_forall.
  intros Hall b1 b2 H1%list_elem_of_In H2%list_elem_of_In Hlt.
  specialize (Hall b1 H1). rewrite forallb_forall in Hall.
  specialize (Hall b2 H2).
  destruct (Z.ltb_spec b1 b2); [|lia]. simpl in Hall. by apply Z.ltb_lt.
Qed.

End ConcreteInputs.

(** C1.  The two auctions do not select the same bidders on every
    population.  On one child with the bids 31 and 1 and [M = 1], both
    within the range [create_commitment] accepts, and with key pairs that
    [generate_keys] returns, the baseline selects the bidder of 31 and the
    protocol the bidder of 1, whose commitment 2 exceeds the commitment
    [2^31 mod (2^31 - 1) = 1] of the bid 31. *)
Lemma auctions_disagree_at_bid_31 :
  generated Examples.keys_a /\ generated Examples.keys_pbc
  /\ exists h pbc ws,
       ProposeAuction.auction_winners Examples.keys_pbc
         Examples.wrapping_bids 1 = Return (h, pbc, ws)
       /\ ProposeAuction.winner_ids h ws = ["B"]
       /\ map OrdinalAuction.id
            (OrdinalAuction.run_simple_auction
               (map snd Examples.wrapping_bids) 1) = ["A"].
Proof.
  split; [apply keys_a_generated|]. split; [apply keys_pbc_generated|].
  eexists _, _, _. split; [by vm_compute|]. split; by vm_compute.
Qed.

(** The same pair of auctions on one child with the bids 16 and 15: the
    commitments [2^16] and [2^15] are in the right order, but both exceed
    the modulus 17947 of the child's 16-bit key pair and are decrypted
    modulo it, so that the protocol selects the bidder of 15. *)
Lemma auctions_disagree_at_bid_16 :
  exists h pbc ws,
    ProposeAuction.auction_winners Examples.keys_pbc
      MoreExamples.truncated_bids 1 = Return (h, pbc, ws)
    /\ ProposeAuction.winner_ids h ws = ["B"]
    /\ map OrdinalAuction.id
         (OrdinalAuction.run_simple_auction
            (map snd MoreExamples.truncated_bids) 1) = ["A"].
Proof.
  eexists _, _, _. split; [by vm_compute|]. split; by vm_compute.
Qed.

(** Agreement on two children with the bids 3, 9 and 5, 12. *)
Lemma auctions_agree_on_small_bids :
  exists h pbc ws,
    ProposeAuction.auction_winners Examples.keys_pbc Examples.small_bids 1
    = Return (h, pbc, ws)
    /\ ProposeAuction.winner_ids h ws
       = map OrdinalAuction.id
           (OrdinalAuction.run_simple_auction
              (map snd Examples.small_bids) 1).
Proof.
  apply auctions_agree_when_commitments_fit.
  - apply keys_pbc_generated.
  - repeat constructor; [apply keys_a_generated|apply keys_b_generated].
  - repeat constructor; by vm_compute.
  - apply increasing_on_b_sound. by vm_compute.
Defined.

(** The round trip under the keys drawn from 131 and 137, at 42. *)
Lemma encrypt_decrypt_round_trip_at_42 :
  ProposeAuction.encrypt 42 (fst Examples.keys_a)
    ≫= (fun c => ProposeAuction.decrypt c (snd Examples.keys_a)) = Return 42
  /\ ProposeAuction.decrypt 42 (snd Examples.keys_a)
    ≫= (fun c => ProposeAuction.encrypt c (fst Examples.keys_a)) = Return 42.
Proof.
  apply (encrypt_decrypt_round_trip (Examples.two_primes 131 137) 2 16).
  - by apply two_primes_ok.
  - by vm_compute.
  - by vm_compute.
Defined.

(** The top bidder of a verifier with two decrypted commitments. *)
Lemma select_top_M_of_two :
  Z.of_nat (length (fst (ProposeAuction.select_top_M 1 Examples.cbc_decrypted)))
  <= Z.min 1 (Z.of_nat (length (ProposeAuction.users Examples.cbc_decrypted))).
Proof.
  destruct (select_top_M_stable_truncated 1 Examples.cbc_decrypted
              Examples.pbc_fresh) as (_ & _ & _ & _ & _ & H & _).
  - apply reach_decrypt_commitments, reach_register_user,
      reach_register_user, reach_init.
  - lia.
  - exact H.
Defined.

(** With bit length 6 the only prime [randprime] can return is 5, and
    [generate_keys] never returns. *)
Lemma generate_keys_6_bits_never_returns :
  randprime_ok_for Examples.only_5 6
  /\ ~ (exists fuel r,
          ProposeAuction.generate_keys Examples.only_5 fuel 6 = Some r).
Proof.
  split.
  - split; intros i; unfold Examples.only_5;
      (split; [apply prime_b_sound; by vm_compute|by vm_compute]).
  - intros (fuel & r & Hrun). revert Hrun.
    unfold ProposeAuction.generate_keys.
    by rewrite while_q_eq_p_none.
Qed.

(** Key generation when the second draw already differs from the first. *)
Lemma generate_keys_returns_on_second_draw :
  exists keys,
    rsa_keys keys
    /\ fst keys = (65537, 131 * 137)
    /\ forall fuel,
         ProposeAuction.generate_keys (Examples.two_primes 131 137) fuel 16
         = if ((0 + 2 <=? fuel) && (0 + 1 <=? fuel))%nat
           then Some (Return keys) else None.
Proof.
  pose proof (generate_keys_retries_without_bound
                (Examples.two_primes 131 137) 16
                (two_primes_ok 131 137 eq_refl eq_refl
                   ltac:(lia) ltac:(lia))) as [Hreturns _].
  apply (Hreturns 0%nat 0%nat).
  - intros t Ht. lia.
  - by vm_compute.
  - intros s Hs. lia.
  - by vm_compute.
Defined.

(** The vector commitment of two winners with two coefficients. *)
Lemma compute_vector_commitment_of_two :
  ProposeAuction.compute_vector_commitment 7 Examples.pbc_ready
  = (Return (Some (running_product 7 [(0%nat, 5); (1%nat, 3)] [2; 4])),
     ProposeAuction.set_vector_commitment
       (Some (running_product 7 [(0%nat, 5); (1%nat, 3)] [2; 4]))
       Examples.pbc_ready)
  /\ running_product 7 [(0%nat, 5); (1%nat, 3)] [2; 4]
     = plain_product [(0%nat, 5); (1%nat, 3)] [2; 4] mod 7.
Proof.
  apply (compute_vector_commitment_product 7 Examples.pbc_ready).
  - discriminate.
  - discriminate.
  - simpl. lia.
  - lia.
  - repeat constructor; lia.
Defined.

(** A fresh parent verifier has nothing to commit to. *)
Lemma compute_vector_commitment_on_fresh :
  ProposeAuction.compute_vector_commitment 7 Examples.pbc_fresh
  = (Raise MissingInputs, Examples.pbc_fresh).
Proof.
  apply (compute_vector_commitment_missing_inputs 7 Examples.pbc_fresh).
  left. reflexivity.
Defined.

(** A bid of 1001 is refused, a bid of 5 commits to 32. *)
Lemma create_commitment_at_1001_and_5 :
  ProposeAuction.create_commitment 2 None (ProposeAuction.User_init "u" 1001)
  = (Raise (BidOutOfRange 1001 1000), ProposeAuction.User_init "u" 1001)
  /\ ProposeAuction.create_commitment 2 None (ProposeAuction.User_init "u" 5)
     = (Return 32,
        ProposeAuction.set_commitment 32 (ProposeAuction.User_init "u" 5)).
Proof.
  split.
  - apply (create_commitment_guarded 2 None
             (ProposeAuction.User_init "u" 1001)).
    simpl. lia.
  - apply (create_commitment_guarded 2 None (ProposeAuction.User_init "u" 5));
      simpl; lia || done.
Defined.

(** The top bidder of a verifier, encrypted for the parent. *)
Lemma encrypt_winners_for_pbc_of_one :
  fst (ProposeAuction.encrypt_winners_for_pbc (fst Examples.keys_pbc)
         Examples.cbc_selected)
  = Return
      (map (fun w => (fst w, snd w ^ 65537 mod 23707))
         (ProposeAuction.top_M_winners Examples.cbc_selected)).
Proof.
  destruct (encrypt_winners_for_pbc_frame (fst Examples.keys_pbc)
              Examples.cbc_selected) as [_ H].
  apply H; simpl; lia.
Defined.

(** Two winners and one coefficient: the second lookup faults. *)
Lemma compute_vector_commitment_short_of_coefficients :
  ProposeAuction.compute_vector_commitment 7 Examples.pbc_short
  = (Raise IndexError,
     ProposeAuction.set_vector_commitment
       (Some (running_product 7 [(0%nat, 5); (1%nat, 3)] [2]))
       Examples.pbc_short).
Proof.
  destruct (compute_vector_commitment_index_safety 7 Examples.pbc_short)
    as (_ & _ & H).
  apply H.
  - discriminate.
  - discriminate.
  - simpl. lia.
  - lia.
  - repeat constructor; lia.
Defined.

(** * Further properties *)

(** ** Stable sorting as merging *)

Section Merging.

Context {A : Type} (key : A -> Z).

Lemma merge_desc_nil_l (b : list A) : merge_desc key [] b = b.
Proof. by destruct b. Qed.

Lemma merge_desc_nil_r (a : list A) : merge_desc key a [] = a.
Proof. by destruct a. Qed.

Lemma merge_desc_cons (x y : A) (a b : list A) :
  merge_desc key (x :: a) (y :: b)
  = if key y <=? key x then x :: merge_desc key a (y :: b)
    else y :: merge_desc key (x :: a) b.
Proof. done. Qed.

Lemma insert_desc_merge (x : A) (l : list A) :
  insert_desc key x l = merge_desc key [x] l.
Proof.
  induction l as [|y l IH]; [done|].
  rewrite merge_desc_cons, merge_desc_nil_l. simpl.
  destruct (key y <=? key x); [done|]. by rewrite IH.
Qed.

Lemma insert_desc_merge_desc (x : A) (a : list A) : forall b,
  insert_desc key x (merge_desc key a b)
  = merge_desc key (insert_desc key x a) b.
Proof.
  induction a as [|a1 a IHa]; intros b.
  - rewrite merge_desc_nil_l. simpl. apply insert_desc_merge.
  - induction b as [|b1 b IHb].
    + by rewrite !merge_desc_nil_r.
    + rewrite merge_desc_cons.
      change (insert_desc key x (a1 :: a))
        with (if key a1 <=? key x then x :: a1 :: a
              else a1 :: insert_desc key x a) in IHb |- *.
      destruct (Z.leb_spec (key b1) (key a1)) as [Hba|Hba];
        destruct (Z.leb_spec (key a1) (key x)) as [Hax|Hax];
        rewrite !merge_desc_cons;
        change (insert_desc key x (?h :: ?t))
          with (if key h <=? key x then x :: h :: t
                else h :: insert_desc key x t);
        repeat match goal with
          | |- context [?u <=? ?v] =>
              destruct (Z.leb_spec u v); try lia
          end;
        rewrite ?IHa, ?IHb; done.
Qed.

Lemma sorted_desc_app (l1 l2 : list A) :
  sorted_desc key (l1 ++ l2)
  = merge_desc key (sorted_desc key l1) (sorted_desc key l2).
Proof.
  induction l1 as [|x l1 IH]; simpl; [by rewrite merge_desc_nil_l|].
  by rewrite IH, insert_desc_merge_desc.
Qed.

Lemma take_merge_desc (n : nat) : forall a b : list A,
  take n (merge_desc key a b)
  = take n (merge_desc key (take n a) (take n b)).
Proof.
  induction n as [|n IH]; intros a b; [done|].
  destruct a as [|x a].
  - rewrite take_nil, !merge_desc_nil_l. by rewrite take_take, Nat.min_id.
  - destruct b as [|y b].
    + rewrite take_nil, !merge_desc_nil_r. by rewrite take_take, Nat.min_id.
    + rewrite !firstn_cons, !merge_desc_cons.
      destruct (key y <=? key x); rewrite !firstn_cons; f_equal.
      * rewrite (IH a (y :: b)), (IH (take n a) (y :: take n b)).
        rewrite take_take, Nat.min_id.
        rewrite <- (firstn_cons n y b), take_take.
        by replace (n `min` S n)%nat with n by lia.
      * rewrite (IH (x :: a) b), (IH (x :: take n a) (take n b)).
        rewrite take_take, Nat.min_id.
        rewrite <- (firstn_cons n x a), take_take.
        by replace (n `min` S n)%nat with n by lia.
Qed.

Lemma insert_desc_head (x : A) (l : list A) :
  Forall (fun y => key y <= key x) l -> insert_desc key x l = x :: l.
Proof.
  destruct 1 as [|y l Hy _]; simpl; [done|].
  by destruct (Z.leb_spec (key y) (key x)); [|lia].
Qed.

(** Sorting leaves a descending list as it is. *)
Lemma sorted_desc_fixed (l : list A) :
  StronglySorted (fun x y => key y <= key x) l -> sorted_desc key l = l.
Proof.
  induction 1 as [|x l _ IH Hx]; simpl; [done|].
  rewrite IH. by apply insert_desc_head.
Qed.

Lemma StronglySorted_take_desc (n : nat) (l : list A) :
  StronglySorted (fun x y => key y <= key x) l ->
  StronglySorted (fun x y => key y <= key x) (take n l).
Proof.
  intros Hl. revert n. induction Hl as [|x l _ IH Hx]; intros [|n]; simpl;
    try constructor.
  - apply IH.
  - by apply Forall_take.
Qed.

(** The top [n] of a concatenation are the top [n] of the groups' own
    top [n]. *)
Lemma top_of_tops (n : nat) (groups : list (list A)) :
  take n (sorted_desc key
            (concat (map (fun g => take n (sorted_desc key g)) groups)))
  = take n (sorted_desc key (concat groups)).
Proof.
  induction groups as [|g groups IH]; simpl; [done|].
  rewrite !sorted_desc_app.
  rewrite take_merge_desc, IH, (take_merge_desc n (sorted_desc key g)).
  rewrite (sorted_desc_fixed (take n (sorted_desc key g)))
    by apply StronglySorted_take_desc, sorted_desc_sorted.
  by rewrite take_take, Nat.min_id.
Qed.

End Merging.

(** ** The baseline against a single global sort *)

Section BaselineGlobal.

Import OrdinalAuction.

Lemma slice_to_take {A} (M : Z) (l : list A) :
  0 <= M -> slice_to M l = take (Z.to_nat M) l.
Proof. intros HM. unfold slice_to. by destruct (Z.ltb_spec M 0); [lia|]. Qed.

Lemma run_simple_auction_unfold (groups : list (list (string * Z))) (M : Z) :
  run_simple_auction groups M
  = slice_to M
      (sorted_desc bid_value
         (concat (map (fun g => slice_to M
                         (sorted_desc bid_value
                            (map (fun b => mkBidder (fst b) (snd b)) g)))
                    groups))).
Proof.
  unfold run_simple_auction, determine_global_winners, collect_winners.
  unfold ParentBlockchain_init. simpl.
  pose proof (collect_winners_loop_run
    (imap (fun i bids =>
             ChildBlockchain_init
               (String.append "CBC"
                  (String (Ascii.ascii_of_nat (65 + i)) EmptyString))
               (map (fun b => mkBidder (fst b) (snd b)) bids) M) groups)
    [] []) as Hrun.
  destruct (collect_winners_loop _ _ _) as [children winners].
  simpl in *. subst winners.
  by rewrite (map_imap_const _
    (fun g => slice_to M
       (sorted_desc bid_value (map (fun b => mkBidder (fst b) (snd b)) g)))).
Qed.

End BaselineGlobal.

(** X1.  For a non-negative [M] the two-tier baseline returns what a
    single stable descending sort of all bidders, child after child, cut
    to [M], returns. *)
Theorem run_simple_auction_is_global_top
  (groups : list (list (string * Z))) (M : Z) :
  0 <= M ->
  OrdinalAuction.run_simple_auction groups M
  = take (Z.to_nat M)
      (sorted_desc OrdinalAuction.bid_value
         (map (fun b => OrdinalAuction.mkBidder (fst b) (snd b))
            (concat groups))).
Proof.
  intros HM. rewrite run_simple_auction_unfold.
  rewrite slice_to_take by done.
  rewrite concat_map.
  rewrite <- (top_of_tops OrdinalAuction.bid_value (Z.to_nat M)
                (map (map (fun b => OrdinalAuction.mkBidder (fst b) (snd b)))
                   groups)).
  rewrite map_map.
  f_equal. f_equal. f_equal. apply map_ext. intros g.
  by rewrite slice_to_take.
Qed.

Lemma run_simple_auction_is_global_top_of_four :
  OrdinalAuction.run_simple_auction MoreExamples.two_groups 1
  = take (Z.to_nat 1)
      (sorted_desc OrdinalAuction.bid_value
         (map (fun b => OrdinalAuction.mkBidder (fst b) (snd b))
            (concat MoreExamples.two_groups))).
Proof. apply run_simple_auction_is_global_top. lia. Defined.

(** ** Users *)

(** X2.  [encrypt_commitment] raises [CommitmentNotCreated] and leaves the
    user as it was when no commitment is stored; with a commitment [c] and
    a usable public key [(e, n)] it stores and returns [c ^ e mod n]; it
    never changes the identity, the bid or the commitment. *)
Theorem encrypt_commitment_guarded
  (pubkey : ProposeAuction.key) (self : ProposeAuction.User) :
  (ProposeAuction.commitment self = None ->
   ProposeAuction.encrypt_commitment pubkey self
   = (Raise CommitmentNotCreated, self))
  /\ (forall c,
        ProposeAuction.commitment self = Some c ->
        snd pubkey <> 0 -> 0 <= fst pubkey ->
        ProposeAuction.encrypt_commitment pubkey self
        = (Return (c ^ fst pubkey mod snd pubkey),
           ProposeAuction.set_encrypted_commitment
             (c ^ fst pubkey mod snd pubkey) self))
  /\ (let self' := snd (ProposeAuction.encrypt_commitment pubkey self) in
      ProposeAuction.user_id self' = ProposeAuction.user_id self
      /\ ProposeAuction.bid_value self' = ProposeAuction.bid_value self
      /\ ProposeAuction.commitment self' = ProposeAuction.commitment self).
Proof.
  unfold ProposeAuction.encrypt_commitment.
  split; [by intros ->|]. split.
  - intros c -> Hn He. destruct pubkey as [e n]. simpl in *.
    by rewrite pow3_nonneg.
  - destruct (ProposeAuction.commitment self) as [c|] eqn:Hc; [|done].
    by destruct (ProposeAuction.encrypt c pubkey).
Qed.

Lemma encrypt_commitment_guarded_at_two_users :
  ProposeAuction.encrypt_commitment (3, 55) MoreExamples.user_new
  = (Raise CommitmentNotCreated, MoreExamples.user_new)
  /\ ProposeAuction.encrypt_commitment (3, 55) MoreExamples.user_committed
     = (Return (32 ^ 3 mod 55),
        ProposeAuction.set_encrypted_commitment (32 ^ 3 mod 55)
          MoreExamples.user_committed).
Proof.
  split.
  - apply (encrypt_commitment_guarded (3, 55) MoreExamples.user_new).
    reflexivity.
  - apply (encrypt_commitment_guarded (3, 55) MoreExamples.user_committed);
      simpl; [reflexivity|lia|lia].
Defined.

(** X3.  The commitment of [run_auction] has period 31: within the range
    [create_commitment] accepts, the bids [b] and [b + 31] get the same
    commitment. *)
Theorem create_commitment_period_31 (b : Z) (u v : ProposeAuction.User) :
  0 <= b -> b + 31 <= 1000 ->
  ProposeAuction.bid_value u = b ->
  ProposeAuction.bid_value v = b + 31 ->
  exists c,
    fst (ProposeAuction.create_commitment (ProposeAuction.vc_keygen 1 100)
           None u) = Return c
    /\ fst (ProposeAuction.create_commitment (ProposeAuction.vc_keygen 1 100)
              None v) = Return c.
Proof.
  intros Hb Hb' Hu Hv. exists (commit_value b).
  rewrite !create_commitment_run by (simpl; done || lia).
  rewrite Hu, Hv. simpl. split; [done|]. f_equal.
  unfold commit_value, ProposeAuction.vc_keygen,
    ProposeAuction.default_modulus.
  rewrite Z.pow_add_r by lia.
  rewrite <- Z.mul_mod_idemp_r by lia.
  change (2 ^ 31 mod (2 ^ 31 - 1)) with 1. by rewrite Z.mul_1_r.
Qed.

Lemma create_commitment_period_31_at_5 :
  exists c,
    fst (ProposeAuction.create_commitment (ProposeAuction.vc_keygen 1 100)
           None (ProposeAuction.User_init "u" 5)) = Return c
    /\ fst (ProposeAuction.create_commitment (ProposeAuction.vc_keygen 1 100)
              None (ProposeAuction.User_init "v" 36)) = Return c.
Proof.
  apply (create_commitment_period_31 5); simpl; lia.
Defined.

(** X4.  Up to the bid 30 the commitment [create_commitment] computes in
    [run_auction] is the power of two itself, so that of two users bidding
    within 0..30 the higher bidder gets the larger commitment. *)
Theorem create_commitment_increasing_up_to_30
  (u1 u2 : ProposeAuction.User) :
  let b1 := ProposeAuction.bid_value u1 in
  let b2 := ProposeAuction.bid_value u2 in
  0 <= b1 -> b1 < b2 -> b2 <= 30 ->
  fst (ProposeAuction.create_commitment (ProposeAuction.vc_keygen 1 100)
         None u1) = Return (2 ^ b1)
  /\ fst (ProposeAuction.create_commitment (ProposeAuction.vc_keygen 1 100)
            None u2) = Return (2 ^ b2)
  /\ 2 ^ b1 < 2 ^ b2.
Proof.
  intros b1 b2 H1 H12 H2.
  assert (Hsmall : forall b, 0 <= b <= 30 ->
            ProposeAuction.vc_keygen 1 100 ^ b
            mod default ProposeAuction.default_modulus None = 2 ^ b).
  { intros b Hb. simpl.
    unfold ProposeAuction.vc_keygen, ProposeAuction.default_modulus.
    apply Z.mod_small. split; [apply Z.pow_nonneg; lia|].
    assert (2 ^ b <= 2 ^ 30) by (apply Z.pow_le_mono_r; lia).
    change (2 ^ 31 - 1) with 2147483647. change (2 ^ 30) with 1073741824 in *.
    lia. }
  rewrite !create_commitment_run by (simpl; done || lia).
  simpl fst. fold b1 b2. rewrite !Hsmall by lia.
  repeat split. apply Z.pow_lt_mono_r; lia.
Qed.

Lemma create_commitment_increasing_at_3_and_9 :
  fst (ProposeAuction.create_commitment (ProposeAuction.vc_keygen 1 100)
         None (ProposeAuction.User_init "u" 3)) = Return (2 ^ 3)
  /\ fst (ProposeAuction.create_commitment (ProposeAuction.vc_keygen 1 100)
            None (ProposeAuction.User_init "v" 9)) = Return (2 ^ 9)
  /\ 2 ^ 3 < 2 ^ 9.
Proof.
  apply (create_commitment_increasing_up_to_30
           (ProposeAuction.User_init "u" 3) (ProposeAuction.User_init "v" 9));
    simpl; lia.
Defined.

(** ** Decryption by the child verifier *)

Section ChildDecryption.

Import ProposeAuction.

Lemma decrypt_commitments_loop_omap (h : store) (us : list loc) :
  forall self,
    snd (cbc_privkey self) <> 0 -> 0 <= fst (cbc_privkey self) ->
    decrypt_commitments_loop h us self
    = (Return tt,
       set_decrypted_commitments
         (decrypted_commitments self
          ++ omap (decrypted_entry h (cbc_privkey self)) us) self).
Proof.
  induction us as [|user us IH]; intros self Hn Hd.
  - simpl. rewrite app_nil_r. by destruct self.
  - change (omap ?f (user :: us))
      with (match f user with
            | Some y => y :: omap f us
            | None => omap f us
            end).
    unfold decrypted_entry at 1. simpl.
    destruct (h !! user ≫= encrypted_commitment) as [c|] eqn:Hc; simpl.
    + unfold decrypt.
      destruct (cbc_privkey self) as [d n] eqn:Hkey. simpl in *.
      rewrite pow3_nonneg by done.
      rewrite IH by (simpl; by rewrite Hkey). simpl.
      by rewrite Hkey, <- app_assoc.
    + by apply IH.
Qed.

End ChildDecryption.

(** X5.  Under a usable private key [(d, n)], [decrypt_commitments]
    returns and stores, in roster order, [(user, c ^ d mod n)] for every
    registered user holding a ciphertext [c], and passes over the users
    without one; what the verifier held as decrypted commitments before is
    discarded, and its roster, keys and top winners are kept. *)
Theorem decrypt_commitments_in_roster_order
  (h : ProposeAuction.store) (self : ProposeAuction.CBCVerifier) :
  snd (ProposeAuction.cbc_privkey self) <> 0 ->
  0 <= fst (ProposeAuction.cbc_privkey self) ->
  let dc := omap (decrypted_entry h (ProposeAuction.cbc_privkey self))
              (ProposeAuction.users self) in
  ProposeAuction.decrypt_commitments h self
  = (Return dc, ProposeAuction.set_decrypted_commitments dc self).
Proof.
  intros Hn Hd dc. unfold ProposeAuction.decrypt_commitments.
  rewrite decrypt_commitments_loop_omap by done.
  done.
Qed.

Lemma decrypt_commitments_of_partial_roster :
  ProposeAuction.decrypt_commitments MoreExamples.store_partial
    MoreExamples.cbc_partial
  = (Return
       (omap (decrypted_entry MoreExamples.store_partial (12113, 17947))
          [0%nat; 1%nat]),
     ProposeAuction.set_decrypted_commitments
       (omap (decrypted_entry MoreExamples.store_partial (12113, 17947))
          [0%nat; 1%nat])
       MoreExamples.cbc_partial).
Proof.
  apply (decrypt_commitments_in_roster_order MoreExamples.store_partial
           MoreExamples.cbc_partial); simpl; lia.
Defined.

(** ** Generated keys *)

Section GeneratedKeys.

Import ProposeAuction.

Variable randprime : nat -> Z -> Z -> Z.

Lemma while_phi_mod_e_no_raise fuel : forall i phi e0 x,
  e0 <> 0 -> (forall k, randprime k 3 1000 <> 0) ->
  while_phi_mod_e randprime fuel i phi e0 <> Some (Raise x).
Proof.
  induction fuel as [|fuel IH]; intros i phi e0 x He0 Hnz; simpl; [done|].
  unfold mod_. destruct (Z.eqb_spec e0 0) as [|_]; [done|].
  destruct (phi mod e0 =? 0); [|done]. by apply IH.
Qed.

(** With bit length 16 both primes lie in [128, 255), so that [phi] is
    below 65537 and the first exponent is kept. *)
Lemma generate_keys_16_inv fuel keys :
  randprime_ok_for randprime 16 ->
  generate_keys randprime fuel 16 = Some (Return keys) ->
  exists p q,
    Z.prime p /\ Z.prime q /\ p <> q
    /\ 128 <= p < 255 /\ 128 <= q < 255
    /\ fst keys = (65537, p * q) /\ snd (snd keys) = p * q.
Proof.
  intros [Hpq He]. unfold generate_keys.
  change (2 ^ (16 / 2 - 1)) with 128 in *.
  change (2 ^ (16 / 2) - 1) with 255 in *.
  set (p := randprime 0%nat 128 255).
  destruct (while_q_eq_p _ _ _ _ _ _ _) as [[q i]|] eqn:Hq; [|done].
  apply while_q_eq_p_inv in Hq as [Hne Hq].
  assert (Hp : Z.prime p /\ 128 <= p < 255) by apply Hpq.
  assert (Hqp : Z.prime q /\ 128 <= q < 255).
  { destruct Hq as [->|[k ->]]; [done|apply Hpq]. }
  destruct fuel as [|fuel]; [done|]. simpl. unfold mod_. simpl.
  assert (Hphi : 0 < (p - 1) * (q - 1) < 65537) by nia.
  rewrite Z.mod_small by lia.
  destruct (Z.eqb_spec ((p - 1) * (q - 1)) 0) as [|_]; [lia|].
  destruct (pow3 65537 (-1) ((p - 1) * (q - 1))) as [d|x]; simpl; [|done].
  intros [= <-]. exists p, q. simpl.
  destruct Hp as [Hp Hpr], Hqp as [Hqp Hqr].
  split; [done|]. split; [done|]. split; [congruence|]. done.
Qed.

End GeneratedKeys.

(** X6.  When [randprime] returns primes of the ranges it is asked for,
    [generate_keys] never raises, and a key pair it returns is an RSA key
    pair whose halves share the modulus. *)
Theorem generate_keys_never_raises
  (randprime : nat -> Z -> Z -> Z) (fuel : nat) (bit_length : Z) :
  randprime_ok_for randprime bit_length ->
  (forall x,
     ProposeAuction.generate_keys randprime fuel bit_length
     <> Some (Raise x))
  /\ (forall keys,
        ProposeAuction.generate_keys randprime fuel bit_length
        = Some (Return keys) ->
        rsa_keys keys /\ snd (fst keys) = snd (snd keys)).
Proof.
  intros Hok. split.
  - intros x. pose proof Hok as [Hpq He].
    unfold ProposeAuction.generate_keys.
    set (lower := 2 ^ (bit_length / 2 - 1)) in *.
    set (upper := 2 ^ (bit_length / 2) - 1) in *.
    set (p := randprime 0%nat lower upper).
    destruct (ProposeAuction.while_q_eq_p _ _ _ _ _ _ _) as [[q i]|] eqn:Hq;
      [|done].
    destruct (ProposeAuction.while_phi_mod_e _ _ _ _ _) as [[e|y]|] eqn:Hloop;
      [| |done].
    + apply while_q_eq_p_inv in Hq as [Hne Hq].
      apply while_phi_mod_e_inv in Hloop as (He0 & Hmod & Hfrom).
      assert (Hp : Z.prime p) by apply Hpq.
      assert (Hqp : Z.prime q).
      { destruct Hq as [->|[k ->]]; [done|apply Hpq]. }
      assert (Hep : Z.prime e).
      { destruct Hfrom as [->|[k ->]]; [apply prime_65537|apply He]. }
      pose proof (Z.prime_ge_2 _ Hp). pose proof (Z.prime_ge_2 _ Hqp).
      assert (Hco : Z.coprime e ((p - 1) * (q - 1))).
      { apply Z.coprime_prime_l; [done|].
        intros Hdiv. apply Hmod, Z.mod_divide; [done|done]. }
      assert (Hphi : 2 <= (p - 1) * (q - 1)) by nia.
      by destruct (pow3_inverse _ _ Hphi Hco) as (d & -> & _).
    + exfalso. eapply while_phi_mod_e_no_raise; [| |exact Hloop]; [done|].
      intros k. pose proof (Z.prime_ge_2 _ (proj1 (He k))). lia.
  - intros keys Hgen.
    pose proof (generate_keys_sound _ _ _ _ Hok Hgen) as Hkeys.
    split; [done|].
    destruct Hkeys as (p & q & _ & _ & _ & -> & -> & _). done.
Qed.

Lemma generate_keys_never_raises_with_131_137 :
  rsa_keys Examples.keys_a
  /\ snd (fst Examples.keys_a) = snd (snd Examples.keys_a).
Proof.
  destruct (generate_keys_never_raises (Examples.two_primes 131 137) 2 16)
    as [_ H].
  - apply two_primes_ok; reflexivity || lia.
  - apply H. by vm_compute.
Defined.

(** X7.  Encrypting and then decrypting under a generated key pair
    reduces modulo [n]: any integer [m] comes back as [m mod n], so that
    exactly the values of [0, n) survive. *)
Theorem round_trip_reduces_modulo_n
  (keys : ProposeAuction.key * ProposeAuction.key) (m : Z) :
  generated keys ->
  ProposeAuction.encrypt m (fst keys)
    ≫= (fun c => ProposeAuction.decrypt c (snd keys))
  = Return (m mod snd (fst keys))
  /\ (m mod snd (fst keys) = m <-> 0 <= m < snd (fst keys)).
Proof.
  intros Hkeys%generated_rsa_keys.
  pose proof (rsa_keys_usable keys Hkeys) as (Hn & He & Henc & Hdec).
  pose proof Hkeys as (p & q & Hp & Hq & _ & Hpq & _).
  pose proof (Z.prime_ge_2 _ Hp). pose proof (Z.prime_ge_2 _ Hq).
  assert (Hpos : 0 < snd (fst keys)) by nia.
  split.
  - rewrite Henc. simpl.
    rewrite <- Z.mod_pow_l.
    apply Hdec. by apply Z.mod_pos_bound.
  - split.
    + intros <-. by apply Z.mod_pos_bound.
    + apply Z.mod_small.
Qed.

Lemma round_trip_reduces_70000 :
  ProposeAuction.encrypt 70000 (fst Examples.keys_a)
    ≫= (fun c => ProposeAuction.decrypt c (snd Examples.keys_a))
  = Return (70000 mod 17947)
  /\ (70000 mod 17947 = 70000 <-> 0 <= 70000 < 17947).
Proof.
  apply (round_trip_reduces_modulo_n Examples.keys_a 70000).
  apply keys_a_generated.
Defined.

(** X8.  With the default bit length 16 the public exponent is always
    65537 and the modulus lies between [128 * 128] and [255 * 255], so
    that no value from [2 ^ 16] on survives the round trip: the
    commitments [2 ^ bid] of the bids 16 to 30 are decrypted to another
    value. *)
Theorem default_keys_lose_bids_from_16
  (randprime : nat -> Z -> Z -> Z) (fuel : nat)
  (keys : ProposeAuction.key * ProposeAuction.key) :
  randprime_ok_for randprime 16 ->
  ProposeAuction.generate_keys randprime fuel 16 = Some (Return keys) ->
  fst (fst keys) = 65537
  /\ 128 * 128 <= snd (fst keys) < 255 * 255
  /\ forall bid, 16 <= bid <= 30 ->
       ProposeAuction.encrypt (2 ^ bid) (fst keys)
         ≫= (fun c => ProposeAuction.decrypt c (snd keys))
       <> Return (2 ^ bid).
Proof.
  intros Hok Hgen.
  destruct (generate_keys_16_inv _ _ _ Hok Hgen)
    as (p & q & Hp & Hq & Hne & Hpr & Hqr & Hpub & Hpriv).
  split; [by rewrite Hpub|]. split; [rewrite Hpub; simpl; nia|].
  intros bid Hbid.
  pose proof (generate_keys_sound _ _ _ _ Hok Hgen) as Hkeys.
  pose proof (rsa_keys_usable keys Hkeys) as (Hn & He & Henc & Hdec).
  assert (Hmod : snd (fst keys) = p * q) by (by rewrite Hpub).
  rewrite Henc. simpl. rewrite <- Z.mod_pow_l.
  rewrite Hdec by (apply Z.mod_pos_bound; rewrite Hmod; nia).
  rewrite Hmod. intros [= Hsame].
  assert (Hbig : 2 ^ 16 <= 2 ^ bid) by (apply Z.pow_le_mono_r; lia).
  pose proof (Z.mod_pos_bound (2 ^ bid) (p * q) ltac:(nia)).
  change (2 ^ 16) with 65536 in Hbig. nia.
Qed.

Lemma default_keys_lose_bids_from_16_with_131_137 :
  fst (fst Examples.keys_a) = 65537
  /\ 128 * 128 <= snd (fst Examples.keys_a) < 255 * 255
  /\ forall bid, 16 <= bid <= 30 ->
       ProposeAuction.encrypt (2 ^ bid) (fst Examples.keys_a)
         ≫= (fun c => ProposeAuction.decrypt c (snd Examples.keys_a))
       <> Return (2 ^ bid).
Proof.
  apply (default_keys_lose_bids_from_16 (Examples.two_primes 131 137) 2).
  - apply two_primes_ok; reflexivity || lia.
  - by vm_compute.
Defined.

(** ** Selection *)

Section SelectionFacts.

Context {A : Type} (key : A -> Z).

Lemma StronglySorted_app_desc (l1 l2 : list A) :
  StronglySorted (fun x y => key y <= key x) (l1 ++ l2) ->
  forall x y, x ∈ l1 -> y ∈ l2 -> key y <= key x.
Proof.
  induction l1 as [|a l1 IH]; simpl; intros Hs x y Hx Hy.
  - by apply elem_of_nil in Hx.
  - apply StronglySorted_inv in Hs as [Hs Ha].
    apply elem_of_cons in Hx as [->|Hx]; [|by apply IH].
    rewrite Forall_forall in Ha. apply Ha, elem_of_app. by right.
Qed.

End SelectionFacts.

(** X9.  A negative [M] does not select nothing: [select_top_M] then
    returns the decrypted commitments in descending order without the last
    [-M], that is [max(0, count + M)] entries. *)
Theorem select_top_M_negative
  (M : Z) (self : ProposeAuction.CBCVerifier) :
  M < 0 ->
  let dc := ProposeAuction.decrypted_commitments self in
  let top := fst (ProposeAuction.select_top_M M self) in
  top = take (length dc - Z.to_nat (- M)) (sorted_desc snd dc)
  /\ Z.of_nat (length top) = Z.max 0 (Z.of_nat (length dc) + M).
Proof.
  intros HM dc top.
  assert (Htop : top = take (length dc - Z.to_nat (- M)) (sorted_desc snd dc)).
  { unfold top. simpl. fold dc. unfold slice_to.
    destruct (Z.ltb_spec M 0); [|lia].
    rewrite sorted_desc_length. f_equal. lia. }
  split; [done|].
  rewrite Htop, length_take, sorted_desc_length. lia.
Qed.

Lemma select_top_M_minus_1_of_two :
  fst (ProposeAuction.select_top_M (-1) Examples.cbc_decrypted)
  = take (length (ProposeAuction.decrypted_commitments Examples.cbc_decrypted)
          - Z.to_nat (- -1))
      (sorted_desc snd
         (ProposeAuction.decrypted_commitments Examples.cbc_decrypted))
  /\ Z.of_nat
       (length (fst (ProposeAuction.select_top_M (-1) Examples.cbc_decrypted)))
     = Z.max 0
         (Z.of_nat
            (length
               (ProposeAuction.decrypted_commitments Examples.cbc_decrypted))
          + -1).
Proof.
  apply (select_top_M_negative (-1) Examples.cbc_decrypted). lia.
Defined.

(** X10.  For a non-negative [M], [select_final_winners] splits the pool:
    the winners it returns and stores, together with the entries it leaves
    out, are a rearrangement of the decrypted pool, and no entry left out
    has a larger value than a winner.  The pool itself is kept. *)
Theorem select_final_winners_are_the_largest
  (M : Z) (self : ProposeAuction.PBCVerifier) :
  0 <= M ->
  let pool := ProposeAuction.all_decrypted_commitments self in
  let ws := fst (ProposeAuction.select_final_winners M self) in
  let self' := snd (ProposeAuction.select_final_winners M self) in
  let rest := drop (Z.to_nat M) (sorted_desc snd pool) in
  ws ++ rest ≡ₚ pool
  /\ (forall w x, w ∈ ws -> x ∈ rest -> snd x <= snd w)
  /\ ProposeAuction.final_winners self' = ws
  /\ ProposeAuction.all_decrypted_commitments self' = pool.
Proof.
  intros HM pool ws self' rest.
  assert (Hws : ws = take (Z.to_nat M) (sorted_desc snd pool)).
  { unfold ws. simpl. fold pool. by rewrite slice_to_take. }
  split; [|split; [|done]].
  - rewrite Hws. unfold rest. by rewrite take_drop, sorted_desc_perm.
  - intros w x Hw Hx. rewrite Hws in Hw.
    apply (StronglySorted_app_desc snd
             (take (Z.to_nat M) (sorted_desc snd pool)) rest); try done.
    unfold rest. rewrite take_drop. apply sorted_desc_sorted.
Qed.

Lemma select_final_winners_are_the_largest_of_three :
  fst (ProposeAuction.select_final_winners 2 MoreExamples.pbc_pool)
  ++ drop (Z.to_nat 2)
       (sorted_desc snd
          (ProposeAuction.all_decrypted_commitments MoreExamples.pbc_pool))
  ≡ₚ ProposeAuction.all_decrypted_commitments MoreExamples.pbc_pool.
Proof.
  destruct (select_final_winners_are_the_largest 2 MoreExamples.pbc_pool)
    as (H & _); [lia|exact H].
Defined.

(** ** The parent verifier *)

Section ParentDecryption.

Import ProposeAuction.

Lemma decrypt_all_commitments_loop_map (ws : list (loc * Z)) :
  forall self,
    snd (pbc_privkey self) <> 0 -> 0 <= fst (pbc_privkey self) ->
    decrypt_all_commitments_loop ws self
    = (Return tt,
       set_all_decrypted_commitments
         (all_decrypted_commitments self
          ++ map (fun w => (fst w,
                            snd w ^ fst (pbc_privkey self)
                            mod snd (pbc_privkey self))) ws) self).
Proof.
  induction ws as [|[user c] ws IH]; intros self Hn Hd; simpl.
  - rewrite app_nil_r. by destruct self.
  - unfold decrypt.
    destruct (pbc_privkey self) as [d n] eqn:Hkey. simpl in *.
    rewrite pow3_nonneg by done.
    rewrite IH by (simpl; by rewrite Hkey). simpl.
    by rewrite Hkey, <- app_assoc.
Qed.

End ParentDecryption.

(** X11.  Under a usable private key [(d, n)], [decrypt_all_commitments]
    returns and stores [(user, c ^ d mod n)] for every pooled ciphertext,
    in pool order.  Under a private key with modulus 0 and a non-empty
    pool it raises the error of [pow], and the decrypted commitments the
    verifier held before are lost. *)
Theorem decrypt_all_commitments_in_pool_order
  (self : ProposeAuction.PBCVerifier) :
  let d := fst (ProposeAuction.pbc_privkey self) in
  let n := snd (ProposeAuction.pbc_privkey self) in
  let pool := ProposeAuction.all_encrypted_winners self in
  (n <> 0 -> 0 <= d ->
   ProposeAuction.decrypt_all_commitments self
   = (Return (map (fun w => (fst w, snd w ^ d mod n)) pool),
      ProposeAuction.set_all_decrypted_commitments
        (map (fun w => (fst w, snd w ^ d mod n)) pool) self))
  /\ (n = 0 -> pool <> [] ->
      ProposeAuction.decrypt_all_commitments self
      = (Raise PowZeroModulus,
         ProposeAuction.set_all_decrypted_commitments [] self)).
Proof.
  intros d n pool. split.
  - intros Hn Hd. unfold ProposeAuction.decrypt_all_commitments.
    by rewrite decrypt_all_commitments_loop_map.
  - intros Hn Hpool. unfold ProposeAuction.decrypt_all_commitments. simpl.
    fold pool. destruct pool as [|[user c] pool]; [done|]. simpl.
    unfold ProposeAuction.decrypt.
    destruct (ProposeAuction.pbc_privkey self) as [d' n'] eqn:Hkey.
    subst d n. simpl in *. subst n'. done.
Qed.

Lemma decrypt_all_commitments_with_zero_modulus :
  ProposeAuction.decrypt_all_commitments MoreExamples.pbc_broken
  = (Raise PowZeroModulus,
     ProposeAuction.set_all_decrypted_commitments [] MoreExamples.pbc_broken).
Proof.
  destruct (decrypt_all_commitments_in_pool_order MoreExamples.pbc_broken)
    as [_ H].
  apply H; [reflexivity|discriminate].
Defined.

(** X12.  What a child verifier forwards comes back: when the top winners'
    values lie in [0, n) for the modulus [n] of a generated parent key
    pair, a fresh parent verifier that collects the output of
    [encrypt_winners_for_pbc] decrypts it to exactly the top winners. *)
Theorem forwarded_winners_are_recovered
  (keys : ProposeAuction.key * ProposeAuction.key)
  (cbc : ProposeAuction.CBCVerifier) :
  generated keys ->
  Forall (fun w => 0 <= snd w < snd (fst keys))
    (ProposeAuction.top_M_winners cbc) ->
  exists forwarded,
    fst (ProposeAuction.encrypt_winners_for_pbc (fst keys) cbc)
    = Return forwarded
    /\ fst (ProposeAuction.decrypt_all_commitments
              (ProposeAuction.collect_encrypted_winners forwarded
                 (ProposeAuction.PBCVerifier_init keys)))
       = Return (ProposeAuction.top_M_winners cbc).
Proof.
  intros Hkeys%generated_rsa_keys Hfit.
  pose proof (rsa_keys_usable keys Hkeys) as (Hn & He & Henc & Hdec).
  pose proof Hkeys as (p & q & _ & _ & _ & Hpub & Hpriv & _ & Hd & _).
  eexists. split.
  - simpl. by rewrite (encrypt_winners_loop_map _ _ _ Henc).
  - unfold ProposeAuction.decrypt_all_commitments.
    rewrite decrypt_all_commitments_loop_map
      by (simpl; done || (rewrite Hpriv, <- Hpub; done)).
    simpl. f_equal. rewrite map_map.
    induction Hfit as [|[user c] ws Hc _ IH]; simpl; [done|].
    f_equal; [|exact IH]. f_equal.
    specialize (Hdec c Hc). destruct keys as [[e n] [d n']].
    simpl in *. subst n n'.
    rewrite pow3_nonneg in Hdec by done. by injection Hdec.
Qed.

Lemma forwarded_winner_is_recovered :
  exists forwarded,
    fst (ProposeAuction.encrypt_winners_for_pbc (fst Examples.keys_pbc)
           Examples.cbc_selected) = Return forwarded
    /\ fst (ProposeAuction.decrypt_all_commitments
              (ProposeAuction.collect_encrypted_winners forwarded
                 (ProposeAuction.PBCVerifier_init Examples.keys_pbc)))
       = Return (ProposeAuction.top_M_winners Examples.cbc_selected).
Proof.
  apply (forwarded_winners_are_recovered Examples.keys_pbc
           Examples.cbc_selected).
  - apply keys_pbc_generated.
  - by vm_compute; repeat constructor.
Defined.

(** ** From selection to the vector commitment *)

(** X13.  The last steps of [run_auction] fit together: after
    [select_final_winners(M)] on a non-empty pool and
    [generate_random_values(M)] with [M >= 1], there are exactly [M]
    coefficients, all in 1..100, at least as many as winners, and
    [compute_vector_commitment] with a non-zero modulus stores and returns
    the running product instead of raising. *)
Theorem vector_commitment_after_selection
  (randint : nat -> Z -> Z -> Z) (M p : Z)
  (self : ProposeAuction.PBCVerifier) :
  randint_ok randint 1 100 -> 1 <= M -> p <> 0 ->
  ProposeAuction.all_decrypted_commitments self <> [] ->
  let selected := snd (ProposeAuction.select_final_winners M self) in
  let drawn := snd (ProposeAuction.generate_random_values randint M selected) in
  let ws := ProposeAuction.final_winners drawn in
  let rs := ProposeAuction.random_values drawn in
  length rs = Z.to_nat M
  /\ Forall (fun r => 1 <= r <= 100) rs
  /\ (0 < length ws <= length rs)%nat
  /\ ProposeAuction.compute_vector_commitment p drawn
     = (Return (Some (running_product p ws rs)),
        ProposeAuction.set_vector_commitment
          (Some (running_product p ws rs)) drawn).
Proof.
  intros Hrand HM Hp Hpool selected drawn ws rs.
  assert (Hrs : length rs = Z.to_nat M).
  { unfold rs. simpl. by rewrite length_map, length_seq. }
  assert (Hrange : Forall (fun r => 1 <= r <= 100) rs).
  { unfold rs. simpl. apply Forall_forall.
    intros r (i & <- & _)%list_elem_of_In%in_map_iff. apply Hrand. }
  assert (Hws : (0 < length ws <= length rs)%nat).
  { rewrite Hrs. unfold ws. simpl.
    rewrite slice_to_take, length_take, sorted_desc_length by lia.
    destruct (ProposeAuction.all_decrypted_commitments self); [done|].
    simpl. lia. }
  repeat (split; [done|]).
  unfold ProposeAuction.compute_vector_commitment. fold ws rs.
  rewrite !bool_decide_eq_false_2
    by (intros Hnil; rewrite Hnil in *; simpl in *; lia).
  simpl.
  rewrite (compute_vector_commitment_loop_run p ws 0 1); [|done|done|].
  - change (ProposeAuction.random_values
              (ProposeAuction.set_vector_commitment (Some 1) drawn)) with rs.
    rewrite drop_0.
    by destruct (Nat.ltb_spec (length rs) (length ws)); [lia|].
  - change (ProposeAuction.random_values
              (ProposeAuction.set_vector_commitment (Some 1) drawn)) with rs.
    rewrite drop_0.
    apply Forall_take. eapply Forall_impl; [exact Hrange|].
    simpl. intros r Hr. lia.
Qed.

Lemma vector_commitment_after_selecting_two :
  length
    (ProposeAuction.random_values
       (snd (ProposeAuction.generate_random_values MoreExamples.always_7 2
               (snd (ProposeAuction.select_final_winners 2
                       MoreExamples.pbc_pool)))))
  = Z.to_nat 2.
Proof.
  destruct (vector_commitment_after_selection MoreExamples.always_7 2 5
              MoreExamples.pbc_pool) as [H _].
  - intros i. unfold MoreExamples.always_7. lia.
  - lia.
  - lia.
  - discriminate.
  - exact H.
Defined.

(** X14.  [run_auction] needs [M >= 1]: with [M <= 0] no coefficient is
    drawn, so that it never returns a result, and when the auction itself
    goes through it ends in [MissingInputs]. *)
Theorem run_auction_needs_positive_M
  (randint : nat -> Z -> Z -> Z)
  (pbc_keys : ProposeAuction.key * ProposeAuction.key)
  (cbcs : list ((ProposeAuction.key * ProposeAuction.key)
                * list (string * Z)))
  (M : Z) :
  M <= 0 ->
  (forall r, ProposeAuction.run_auction randint pbc_keys cbcs M <> Return r)
  /\ (forall h pbc ws,
        ProposeAuction.auction_winners pbc_keys cbcs M = Return (h, pbc, ws) ->
        ProposeAuction.run_auction randint pbc_keys cbcs M
        = Raise MissingInputs).
Proof.
  intros HM.
  assert (Hgo : forall h pbc ws,
    ProposeAuction.auction_winners pbc_keys cbcs M = Return (h, pbc, ws) ->
    ProposeAuction.run_auction randint pbc_keys cbcs M = Raise MissingInputs).
  { intros h pbc ws Hrun. unfold ProposeAuction.run_auction.
    rewrite Hrun. simpl.
    replace (Z.to_nat M) with 0%nat by lia. simpl.
    unfold ProposeAuction.compute_vector_commitment. simpl.
    by rewrite orb_true_r. }
  split; [|done]. intros r Hr.
  destruct (ProposeAuction.auction_winners pbc_keys cbcs M)
    as [[[h pbc] ws]|e] eqn:Hrun.
  - by rewrite (Hgo h pbc ws) in Hr.
  - unfold ProposeAuction.run_auction in Hr. by rewrite Hrun in Hr.
Qed.

Lemma run_auction_with_M_0 :
  ProposeAuction.run_auction MoreExamples.always_7 Examples.keys_pbc
    Examples.small_bids 0 = Raise MissingInputs.
Proof.
  destruct (run_auction_needs_positive_M MoreExamples.always_7
              Examples.keys_pbc Examples.small_bids 0) as [_ H]; [lia|].
  eapply H. by vm_compute.
Defined.

(** ** The baseline's parent *)

Section ParentBaseline.

Import OrdinalAuction.

(** The winners a child contributes. *)
Lemma collect_winners_loop_children todo : forall done acc,
  fst (collect_winners_loop todo done acc)
  = done ++ map (fun ch => snd (select_top_M ch)) todo.
Proof.
  induction todo as [|ch todo IH]; intros done acc; simpl.
  - by rewrite app_nil_r.
  - rewrite IH. by rewrite <- app_assoc.
Qed.

Lemma collect_winners_fields (self : ParentBlockchain) :
  child_chains (collect_winners self)
  = map (fun ch => snd (select_top_M ch)) (child_chains self)
  /\ all_winners (collect_winners self)
     = all_winners self
       ++ concat (map (fun ch => slice_to (child_M ch)
                                   (sorted_desc bid_value (bidders ch)))
                    (child_chains self))
  /\ parent_M (collect_winners self) = parent_M self.
Proof.
  unfold collect_winners.
  pose proof (collect_winners_loop_children (child_chains self) []
                (all_winners self)) as Hc.
  pose proof (collect_winners_loop_run (child_chains self) []
                (all_winners self)) as Hw.
  destruct (collect_winners_loop _ _ _) as [children winners].
  simpl in *. by subst.
Qed.

End ParentBaseline.

(** X15.  [collect_winners] does not start from an empty list: it appends
    the winners of every child, in child order, to what [all_winners]
    already holds, so that calling it a second time appends the same
    winners once more. *)
Theorem collect_winners_accumulates (self : OrdinalAuction.ParentBlockchain) :
  let contributed :=
    concat (map (fun ch =>
                   slice_to (OrdinalAuction.child_M ch)
                     (sorted_desc OrdinalAuction.bid_value
                        (OrdinalAuction.bidders ch)))
              (OrdinalAuction.child_chains self)) in
  OrdinalAuction.all_winners (OrdinalAuction.collect_winners self)
  = OrdinalAuction.all_winners self ++ contributed
  /\ OrdinalAuction.all_winners
       (OrdinalAuction.collect_winners (OrdinalAuction.collect_winners self))
     = OrdinalAuction.all_winners self ++ contributed ++ contributed.
Proof.
  intros contributed.
  destruct (collect_winners_fields self) as (Hc & Hw & _).
  destruct (collect_winners_fields (OrdinalAuction.collect_winners self))
    as (_ & Hw2 & _).
  split; [done|].
  rewrite Hw2, Hw, Hc, map_map, <- app_assoc. done.
Qed.

(** ** The ordering check *)

(** X16.  On the configured generator 2 and modulus [2^31 - 1],
    [verify_commitment_ordering] answers [True] exactly when [max_bid] is
    below 100, where it compares at most one commitment; from 100 on it
    answers [False], the commitment of 100 being smaller than that of
    50. *)
Theorem verify_commitment_ordering_configured (max_bid : Z) :
  ProposeAuction.verify_commitment_ordering
    (ProposeAuction.vc_keygen 1 100) ProposeAuction.default_modulus max_bid
  = Return (max_bid <? 100).
Proof.
  unfold ProposeAuction.verify_commitment_ordering,
    ProposeAuction.verify_commitment_ordering_loop.
  cbn [foldl].
  destruct (Z.ltb_spec max_bid 100) as [H100|H100];
    destruct (Z.leb_spec 50 max_bid) as [H50|H50]; try lia;
    destruct (Z.leb_spec 100 max_bid) as [H1|H1]; try lia;
    destruct (Z.leb_spec 150 max_bid) as [H2|H2]; try lia;
    destruct (Z.leb_spec 200 max_bid) as [H3|H3]; try lia;
    destruct (Z.leb_spec 250 max_bid) as [H4|H4]; try lia;
    destruct (Z.leb_spec 300 max_bid) as [H5|H5]; try lia;
    by vm_compute.
Qed.

(** X17.  Whatever the generator and the modulus, the ordering check
    passes when [max_bid] is below 50, since no sample bid is then
    examined, and with a non-zero modulus also below 100, where a single
    commitment is compared with nothing. *)
Theorem verify_commitment_ordering_vacuous (g modulus max_bid : Z) :
  max_bid < 100 -> modulus <> 0 \/ max_bid < 50 ->
  ProposeAuction.verify_commitment_ordering g modulus max_bid = Return true.
Proof.
  intros H100 Hcase.
  unfold ProposeAuction.verify_commitment_ordering,
    ProposeAuction.verify_commitment_ordering_loop.
  cbn [foldl].
  destruct (Z.leb_spec 100 max_bid); [lia|].
  destruct (Z.leb_spec 150 max_bid); [lia|].
  destruct (Z.leb_spec 200 max_bid); [lia|].
  destruct (Z.leb_spec 250 max_bid); [lia|].
  destruct (Z.leb_spec 300 max_bid); [lia|].
  destruct (Z.leb_spec 50 max_bid) as [H50|H50]; [|done].
  destruct Hcase as [Hm|]; [|lia].
  simpl. by rewrite pow3_nonneg by (done || lia).
Qed.

Lemma verify_commitment_ordering_vacuous_at_60 :
  ProposeAuction.verify_commitment_ordering 3 7 60 = Return true.
Proof.
  apply verify_commitment_ordering_vacuous; [lia|left; lia].
Defined.

(** X18.  The driver of the trials never gets to the auction: its
    ordering check on the generator 2, the modulus [2^31 - 1] and the
    maximum bid 300 fails, so that for every bidder distribution, number
    of children, [M], key material and randomness it returns
    [(None, None)]. *)
Theorem run_auction_with_generated_data_returns_none
  (randint : nat -> Z -> Z -> Z)
  (pbc_keys : ProposeAuction.key * ProposeAuction.key)
  (cbc_keys : nat -> ProposeAuction.key * ProposeAuction.key)
  (bidder_counts : list Z) (num_child_blockchains M : Z) :
  ProposeTestVerify.run_auction_with_generated_data randint pbc_keys cbc_keys
    bidder_counts num_child_blockchains M
  = Return (None, None).
Proof.
  unfold ProposeTestVerify.run_auction_with_generated_data.
  change (2 ^ 31 - 1) with ProposeAuction.default_modulus.
  assert (ProposeAuction.verify_commitment_ordering
            (ProposeAuction.vc_keygen 1 100) ProposeAuction.default_modulus
            300 = Return false) as -> by (by vm_compute).
  done.
Qed.

(** ** Generated bidders *)

(** X19.  [generate_random_bidders(chain_id, n)] returns [max(0, n)]
    bidders with pairwise different names, and when [randint] keeps to
    its range every bid lies in 50..300. *)
Theorem generate_random_bidders_distinct
  (randint : nat -> Z -> Z -> Z) (k : nat) (chain_id : string) (n : Z) :
  randint_ok randint 50 300 ->
  let bidders :=
    OrdinalGenerator.generate_random_bidders randint k chain_id n in
  length bidders = Z.to_nat n
  /\ NoDup (map OrdinalAuction.id bidders)
  /\ Forall (fun b => 50 <= OrdinalAuction.bid_value b <= 300) bidders.
Proof.
  intros Hrand bidders. unfold bidders,
    OrdinalGenerator.generate_random_bidders.
  split; [by rewrite length_map, length_seq|]. split.
  - rewrite map_map. simpl.
    assert (Hinj : Inj (=) (=)
              (fun j : nat =>
                 String.append chain_id
                   (String.append "_Bidder" (pretty (Z.of_nat (S j)))))).
    { intros i j Hij.
      apply String.app_inj, String.app_inj in Hij.
      apply (inj pretty) in Hij. lia. }
    apply (NoDup_fmap_2 _ (seq 0 (Z.to_nat n))), NoDup_seq.
  - apply Forall_forall.
    intros b (j & <- & _)%list_elem_of_In%in_map_iff. simpl. apply Hrand.
Qed.

Lemma generate_random_bidders_distinct_three :
  length (OrdinalGenerator.generate_random_bidders
            (fun _ _ _ => 120) 0 "CBCA" 3) = Z.to_nat 3
  /\ NoDup (map OrdinalAuction.id
              (OrdinalGenerator.generate_random_bidders
                 (fun _ _ _ => 120) 0 "CBCA" 3))
  /\ Forall (fun b => 50 <= OrdinalAuction.bid_value b <= 300)
       (OrdinalGenerator.generate_random_bidders
          (fun _ _ _ => 120) 0 "CBCA" 3).
Proof.
  apply (generate_random_bidders_distinct (fun _ _ _ => 120) 0 "CBCA" 3).
  intros i. lia.
Defined.

(** ** From bidding to decryption *)

(** X20.  The bidding phase and the child's decryption fit together: when
    the bidders of a child, all with bids in 0..1000 whose commitment is
    below the modulus of the child's generated key pair, have committed
    and encrypted, [decrypt_commitments] returns every bidder with its
    commitment, in registration order. *)
Theorem decrypt_commitments_recovers_commitments
  (keys : ProposeAuction.key * ProposeAuction.key) (cbc_id : string)
  (bids : list (string * Z)) (h0 : ProposeAuction.store) :
  generated keys ->
  Forall (fun b => 0 <= snd b <= 1000
                   /\ commit_value (snd b) < snd (fst keys)) bids ->
  let us := seq (length h0) (length bids) in
  let cbc := foldl (fun c user => ProposeAuction.register_user user c)
               (ProposeAuction.CBCVerifier_init cbc_id keys) us in
  exists h,
    ProposeAuction.bidding_phase (ProposeAuction.vc_keygen 1 100)
      (ProposeAuction.cbc_pubkey cbc) us
      (h0 ++ map (fun b => ProposeAuction.User_init (fst b) (snd b)) bids)
    = Return h
    /\ fst (ProposeAuction.decrypt_commitments h cbc)
       = Return (map commitment_of (zip us bids)).
Proof.
  intros Hkeys%generated_rsa_keys Hbids us cbc.
  pose proof (rsa_keys_usable keys Hkeys) as (Hn & He & _ & _).
  exists (h0 ++ map (committed_user (fst keys)) bids). split.
  - unfold cbc. rewrite foldl_register_user. simpl.
    apply bidding_phase_run; [done|done|].
    eapply Forall_impl; [exact Hbids|]. simpl. tauto.
  - unfold cbc. rewrite foldl_register_user.
    unfold ProposeAuction.decrypt_commitments. simpl.
    rewrite (decrypt_commitments_loop_run _ keys _ bids); [done|done| | |done].
    + pose proof (store_lookup_group (committed_user (fst keys)) bids h0 [])
        as Hstore.
      by rewrite !app_nil_r in Hstore.
    + eapply Forall_impl; [exact Hbids|]. simpl. intros b [_ Hb].
      pose proof (commit_value_bounds (snd b)). lia.
Qed.

Lemma decrypt_commitments_recovers_two_commitments :
  exists h,
    ProposeAuction.bidding_phase (ProposeAuction.vc_keygen 1 100)
      (ProposeAuction.cbc_pubkey
         (foldl (fun c user => ProposeAuction.register_user user c)
            (ProposeAuction.CBCVerifier_init "CBC_A" Examples.keys_a)
            (seq (length (@nil ProposeAuction.User))
               (length [("A", 3); ("B", 9)]))))
      (seq (length (@nil ProposeAuction.User)) (length [("A", 3); ("B", 9)]))
      ([] ++ map (fun b => ProposeAuction.User_init (fst b) (snd b))
               [("A", 3); ("B", 9)])
    = Return h
    /\ fst (ProposeAuction.decrypt_commitments h
              (foldl (fun c user => ProposeAuction.register_user user c)
                 (ProposeAuction.CBCVerifier_init "CBC_A" Examples.keys_a)
                 (seq (length (@nil ProposeAuction.User))
                    (length [("A", 3); ("B", 9)]))))
       = Return
           (map commitment_of
              (zip (seq (length (@nil ProposeAuction.User))
                      (length [("A", 3); ("B", 9)]))
                 [("A", 3); ("B", 9)])).
Proof.
  apply (decrypt_commitments_recovers_commitments Examples.keys_a "CBC_A"
           [("A", 3); ("B", 9)] []).
  - apply keys_a_generated.
  - repeat constructor; by vm_compute.
Defined.

(** ** A bid above the safe maximum *)

Section BidOutOfRangeAborts.

Import ProposeAuction.

Lemma bidding_phase_out_of_range (pubkey : key) (b : string * Z)
  (post : list (string * Z)) (pre : list (string * Z)) :
  snd pubkey <> 0 -> 0 <= fst pubkey ->
  Forall (fun a => 0 <= snd a <= 1000) pre -> 1000 < snd b ->
  forall h0,
    bidding_phase (vc_keygen 1 100) pubkey
      (seq (length h0) (length (pre ++ b :: post)))
      (h0 ++ map (fun a => User_init (fst a) (snd a)) (pre ++ b :: post))
    = Raise (BidOutOfRange (snd b) 1000).
Proof.
  intros Hn He Hpre Hb.
  induction Hpre as [|a pre Ha _ IH]; intros h0; simpl.
  - rewrite list_lookup_middle by done.
    unfold create_commitment, max_safe_bid. simpl.
    by destruct (Z.ltb_spec 1000 (snd b)); [|lia].
  - rewrite list_lookup_middle by done.
    rewrite create_commitment_run by (simpl; done || lia).
    unfold encrypt_commitment. simpl.
    destruct pubkey as [e n]. simpl in *.
    rewrite pow3_nonneg by done.
    rewrite insert_app_r_alt, Nat.sub_diag by done. simpl.
    specialize (IH (h0 ++ [committed_user (e, n) a])).
    rewrite length_app, Nat.add_1_r, <- app_assoc in IH. exact IH.
Qed.

End BidOutOfRangeAborts.

(** X21.  A bid above 1000 aborts the whole auction: when a bidder of the
    first child bids more than 1000 and the bidders before it bid within
    0..1000, [auction_winners] raises [BidOutOfRange] for that bid,
    whatever the other children and [M] are. *)
Theorem auction_aborts_on_bid_out_of_range
  (pbc_keys keys : ProposeAuction.key * ProposeAuction.key)
  (pre post : list (string * Z)) (b : string * Z)
  (others : list ((ProposeAuction.key * ProposeAuction.key)
                  * list (string * Z)))
  (M : Z) :
  generated keys ->
  Forall (fun a => 0 <= snd a <= 1000) pre -> 1000 < snd b ->
  ProposeAuction.auction_winners pbc_keys
    ((keys, pre ++ b :: post) :: others) M
  = Raise (BidOutOfRange (snd b) 1000).
Proof.
  intros Hkeys%generated_rsa_keys Hpre Hb.
  pose proof (rsa_keys_usable keys Hkeys) as (Hn & He & _ & _).
  unfold ProposeAuction.auction_winners. simpl.
  unfold ProposeAuction.cbc_round.
  rewrite foldl_register_user. simpl.
  pose proof (bidding_phase_out_of_range (fst keys) b post pre Hn He Hpre Hb [])
    as Hphase.
  simpl in Hphase. by rewrite Hphase.
Qed.

Lemma auction_aborts_on_bid_1001 :
  ProposeAuction.auction_winners Examples.keys_pbc
    ((Examples.keys_a, [("A", 3)] ++ ("B", 1001) :: [("C", 7)])
     :: Examples.small_bids) 2
  = Raise (BidOutOfRange (snd ("B", 1001)) 1000).
Proof.
  apply (auction_aborts_on_bid_out_of_range Examples.keys_pbc Examples.keys_a
           [("A", 3)] [("C", 7)] ("B", 1001) Examples.small_bids 2).
  - apply keys_a_generated.
  - repeat constructor; simpl; lia.
  - simpl. lia.
Defined.
